(** * TrafficLattice: construction and vehicle registration

    A shallow embedding of [conformal_lattice_planner/traffic_lattice.h] and
    of its template implementation: the road-distance convention, the head
    and rear reference points of a vehicle, the road chain sorter, the
    start/range estimator, vehicle registration and the two constructors.

    Conventions of the embedding.
    - A C++ [double] is an exact rational ([Qc]); rounding, NaN and the
      infinities are outside of the model.  [std::sin], [std::cos] and
      [M_PI] come from <cmath> and are parameters.
    - [size_t] identifiers (vehicles, roads, waypoints) are [N]; the code
      never does arithmetic on them.  A lane id is a C++ [int], here [Z].
    - A lattice node is identified by the id of its waypoint, as in the
      waypoint-to-node table of the base lattice; [shared_ptr]/[weak_ptr]
      to a node become that id, and the node objects live in one store.
    - A C++ exception is a [Throw]; undefined behaviour and a loop that
      never exits are two further outcomes of [result]. *)

From stdpp Require Import base numbers option list gmap sorting.
From Stdlib Require Import QArith Qcanon Qround.

Close Scope Qc_scope.
Close Scope Q_scope.

(** ** Outcomes *)

Inductive failure : Set :=
| LaneIdZero          (* "Waypoint has lane ID 0." *)
| RangeTooSmall       (* "The given range [%1%] is too small. ..." *)
| RoadsCannotBeSorted (* "The given roads cannot be sorted. ..." *)
| NodesNotFound       (* "Cannot find nodes on lattice close to the vehicle." *)
| NodesNotConnected   (* "The head and rear nodes for the vehicle are not connected in the lattice." *)
| CollisionsDetected  (* "Collisions detected within the input vehicles." *)
| UndefinedBehaviour  (* e.g. dereferencing [begin()] of an empty container *)
| NonTermination.     (* a loop whose exit condition is never met *)

Inductive result (A : Type) : Type :=
| Ok (a : A)
| Throw (e : failure).
Arguments Ok {A} a.
Arguments Throw {A} e.

#[global] Instance failure_eq_dec : EqDecision failure.
Proof. solve_decision. Defined.

#[global] Instance result_eq_dec `{EqDecision A} : EqDecision (result A).
Proof. solve_decision. Defined.

#[global] Instance result_ret : MRet result := λ A a, Ok a.
#[global] Instance result_bind : MBind result := λ A B f m,
  match m with
  | Ok a => f a
  | Throw e => Throw e
  end.
#[global] Instance result_fmap : FMap result := λ A B f m,
  match m with
  | Ok a => Ok (f a)
  | Throw e => Throw e
  end.

Lemma bind_Ok {A B} (m : result A) (f : A → result B) (b : B) :
  m ≫= f = Ok b ↔ ∃ a, m = Ok a ∧ f a = Ok b.
Proof.
  destruct m as [a|e]; simpl; split.
  - intros Hf. by exists a.
  - by intros (a' & [= <-] & Hf).
  - done.
  - by intros (a' & [=] & _).
Qed.

(** ** Numbers and CARLA geometry *)

Abbreviation double := Qc.

(** A floating literal of the source, read as the rational it denotes. *)
Definition lit (q : Q) : double := Q2Qc q.

Record Location := { loc_x : double; loc_y : double; loc_z : double }.
Record Rotation := { pitch : double; yaw : double; roll : double }.
Record CarlaTransform := { location : Location; rotation : Rotation }.
Record Vector3D := { vec_x : double; vec_y : double; vec_z : double }.
Record CarlaBoundingBox := { box_location : Location; extent : Vector3D }.

(** [carla::client::Waypoint], through the four getters the code calls. *)
Record CarlaWaypoint := {
  GetId : N;
  GetRoadId : N;
  GetLaneId : Z;
  GetDistance : double;
}.

(** [carla::client::Map]: [map_->GetWaypoint(location)] and
    [map_->GetMap().GetMap().GetRoad(id).GetLength()]. *)
Class CarlaMap := {
  GetWaypoint : Location → CarlaWaypoint;
  GetLength : N → double;
}.

(** The [Router] template parameter. *)
Class Router := {
  prevRoad : N → option N;
  nextRoad : N → option N;
}.

(** <cmath>. *)
Class CMath := {
  std_sin : double → double;
  std_cos : double → double;
  M_PI : double;
}.

(** [using VehicleTuple = std::tuple<size_t, CarlaTransform, CarlaBoundingBox>] *)
Definition VehicleTuple : Type := N * CarlaTransform * CarlaBoundingBox.

(** [carla::client::Vehicle], through the getters of the second constructor. *)
Record CarlaVehicle := {
  vehicle_GetId : N;
  vehicle_GetTransform : CarlaTransform;
  vehicle_GetBoundingBox : CarlaBoundingBox;
}.

(** ** Road distance and reference points *)

Section Waypoints.
Context `{map_ : CarlaMap} `{cmath : CMath}.
Open Scope Qc_scope.

Definition waypointToRoadStartDistance (waypoint : CarlaWaypoint) : result double :=
  if bool_decide (GetLaneId waypoint = 0%Z) then Throw LaneIdZero
  else
    let road_length := GetLength (GetRoadId waypoint) in
    if bool_decide (GetLaneId waypoint > 0)%Z
    then Ok (road_length - GetDistance waypoint)
    else Ok (GetDistance waypoint).

Definition vehicleWaypoint (transform : CarlaTransform) : CarlaWaypoint :=
  GetWaypoint (location transform).

(** The point handed to [GetWaypoint] by [vehicleHeadWaypoint]. *)
Definition headLocation (transform : CarlaTransform) (bounding_box : CarlaBoundingBox)
  : Location :=
  let sin := std_sin (yaw (rotation transform) / lit 180.0 * M_PI) in
  let cos := std_cos (yaw (rotation transform) / lit 180.0 * M_PI) in
  {| loc_x := cos * vec_x (extent bounding_box) + loc_x (location transform);
     loc_y := sin * vec_x (extent bounding_box) + loc_y (location transform);
     loc_z := loc_z (location transform) |}.

Definition vehicleHeadWaypoint (transform : CarlaTransform)
  (bounding_box : CarlaBoundingBox) : CarlaWaypoint :=
  GetWaypoint (headLocation transform bounding_box).

(** The point handed to [GetWaypoint] by [vehicleRearWaypoint]. *)
Definition rearLocation (transform : CarlaTransform) (bounding_box : CarlaBoundingBox)
  : Location :=
  let sin := std_sin (yaw (rotation transform) / lit 180.0 * M_PI) in
  let cos := std_cos (yaw (rotation transform) / lit 180.0 * M_PI) in
  {| loc_x := - cos * vec_x (extent bounding_box) + loc_x (location transform);
     loc_y := - sin * vec_x (extent bounding_box) + loc_y (location transform);
     loc_z := loc_z (location transform) |}.

Definition vehicleRearWaypoint (transform : CarlaTransform)
  (bounding_box : CarlaBoundingBox) : CarlaWaypoint :=
  GetWaypoint (rearLocation transform bounding_box).

(** C7. For every waypoint, [waypointToRoadStartDistance] returns the road
    length minus the waypoint's offset when the lane id is positive, the
    offset itself when the lane id is negative, and throws when the lane id
    is 0. *)
Theorem waypointToRoadStartDistance_spec (waypoint : CarlaWaypoint) :
  ((0 < GetLaneId waypoint)%Z →
     waypointToRoadStartDistance waypoint
     = Ok (GetLength (GetRoadId waypoint) - GetDistance waypoint)) ∧
  ((GetLaneId waypoint < 0)%Z →
     waypointToRoadStartDistance waypoint = Ok (GetDistance waypoint)) ∧
  (GetLaneId waypoint = 0%Z →
     waypointToRoadStartDistance waypoint = Throw LaneIdZero).
Proof.
  unfold waypointToRoadStartDistance.
  repeat split; intros Hlane; repeat case_bool_decide; (done || lia).
Qed.

(** C9. The head reference point is the centre plus
    (extent·cos(yaw·π/180), extent·sin(yaw·π/180)) in the x,y plane with z
    unchanged, the rear reference point is the centre minus that offset,
    and the head and rear waypoints are what the map resolves these two
    points to. *)
Theorem vehicle_reference_points (transform : CarlaTransform)
  (bounding_box : CarlaBoundingBox) :
  let centre := location transform in
  let e := vec_x (extent bounding_box) in
  let rad := yaw (rotation transform) * M_PI / lit 180 in
  headLocation transform bounding_box
  = {| loc_x := loc_x centre + e * std_cos rad;
       loc_y := loc_y centre + e * std_sin rad;
       loc_z := loc_z centre |} ∧
  rearLocation transform bounding_box
  = {| loc_x := loc_x centre - e * std_cos rad;
       loc_y := loc_y centre - e * std_sin rad;
       loc_z := loc_z centre |} ∧
  vehicleHeadWaypoint transform bounding_box
  = GetWaypoint (headLocation transform bounding_box) ∧
  vehicleRearWaypoint transform bounding_box
  = GetWaypoint (rearLocation transform bounding_box).
Proof.
  intros centre e rad.
  assert (Hrad : yaw (rotation transform) / lit 180.0 * M_PI = rad).
  { unfold rad. replace (lit 180.0) with (lit 180) by (by apply Qc_is_canon).
    field. done. }
  split_and!; [| |reflexivity..]; unfold headLocation, rearLocation;
    cbv zeta; rewrite Hrad; fold centre e; f_equal; ring.
Qed.

End Waypoints.

(** ** Chaining roads: [sortRoads] *)

(** The deque [sorted_roads] and the set [remaining_roads] of [sortRoads]. *)
Record chain := {
  sorted_roads : list N;
  remaining_roads : gset N;
}.

(** [while (roads.count(l.front()) == 0) l.pop_front();] *)
Fixpoint pop_front_outside (roads : gset N) (l : list N) : list N :=
  match l with
  | [] => []
  | r :: l' => if decide (r ∈ roads) then l else pop_front_outside roads l'
  end.

(** [while (roads.count(l.back()) == 0) l.pop_back();] *)
Definition pop_back_outside (roads : gset N) (l : list N) : list N :=
  reverse (pop_front_outside roads (reverse l)).

(** *** Lists whose neighbours are related *)

(** Every element is related to the one after it. *)
Definition chained (R : N → N → Prop) (l : list N) : Prop :=
  ∀ i a b, l !! i = Some a → l !! S i = Some b → R a b.

Lemma chained_cons (R : N → N → Prop) (r f : N) (l : list N) :
  R r f → chained R (f :: l) → chained R (r :: f :: l).
Proof.
  intros Hrf Hl [|i] a b; simpl.
  - by intros [= <-] [= <-].
  - apply Hl.
Qed.

Lemma chained_snoc (R : N → N → Prop) (l : list N) (a r : N) :
  chained R l → last l = Some a → R a r → chained R (l ++ [r]).
Proof.
  intros Hl Hlast Har i x y Hx Hy.
  rewrite last_lookup in Hlast.
  assert (S i < length (l ++ [r])) as Hlen by (by eapply lookup_lt_Some).
  rewrite length_app in Hlen. simpl in Hlen.
  rewrite lookup_app_l in Hx by lia.
  destruct (decide (S i < length l)).
  - rewrite lookup_app_l in Hy by lia. by eapply Hl.
  - rewrite lookup_app_r in Hy by lia.
    replace (S i - length l) with 0 in Hy by lia.
    replace (Nat.pred (length l)) with i in Hlast by lia.
    simpl in Hy. congruence.
Qed.

Lemma chained_app_inv (R : N → N → Prop) (l1 l2 : list N) :
  chained R (l1 ++ l2) → chained R l1 ∧ chained R l2.
Proof.
  intros Hl. split; intros i a b Ha Hb.
  - apply (Hl i); by apply lookup_app_l_Some.
  - apply (Hl (length l1 + i)).
    + by rewrite lookup_app_r, Nat.add_comm, Nat.add_sub by lia.
    + rewrite lookup_app_r by lia.
      by replace (S (length l1 + i) - length l1) with (S i) by lia.
Qed.

Section SortRoads.
Context `{router_ : Router}.

(** [*(s.begin())] of a [std::unordered_set]: which element comes first is
    up to the hash table; an empty set has none. *)
Variable uset_begin : gset N → option N.

(** [if (!remaining_roads.empty()) remaining_roads.erase(r);] *)
Definition erase_road (r : N) (remaining : gset N) : gset N :=
  if decide (remaining = ∅) then remaining else remaining ∖ {[r]}.

(** One round of the expansion loop, up to its [break] test.  The deque
    holds the seed from the start, so [front()] and [back()] are defined. *)
Definition expandOnce (c : chain) : chain :=
  match sorted_roads c with
  | [] => c
  | first_road :: _ =>
    let last_road := default first_road (last (sorted_roads c)) in
    let new_first_road := prevRoad first_road in
    let new_last_road := nextRoad last_road in
    let c1 :=
      match new_first_road with
      | Some r => {| sorted_roads := r :: sorted_roads c;
                     remaining_roads := erase_road r (remaining_roads c) |}
      | None => c
      end in
    match new_last_road with
    | Some r => {| sorted_roads := sorted_roads c1 ++ [r];
                   remaining_roads := erase_road r (remaining_roads c1) |}
    | None => c1
    end
  end.

(** [for (size_t i = 0; i < n; ++i) { ...; if (remaining_roads.empty()) break; }] *)
Fixpoint expandLoop (n : nat) (c : chain) : chain :=
  match n with
  | O => c
  | S n' =>
    let c' := expandOnce c in
    if decide (remaining_roads c' = ∅) then c' else expandLoop n' c'
  end.

(** The chain right after seeding. *)
Definition seedChain (roads : gset N) (seed : N) : chain :=
  {| sorted_roads := [seed]; remaining_roads := roads ∖ {[seed]} |}.

Definition sortRoads (roads : gset N) : result (list N) :=
  match uset_begin roads with
  | None => Throw UndefinedBehaviour
  | Some seed =>
    let c := expandLoop 5 (seedChain roads seed) in
    if decide (remaining_roads c ≠ ∅) then Throw RoadsCannotBeSorted
    else Ok (pop_back_outside roads (pop_front_outside roads (sorted_roads c)))
  end.

(** [k] router hops from [r], forward with [nextRoad] or backward with
    [prevRoad]; [None] when the router runs out of roads on the way. *)
Fixpoint hops (step : N → option N) (k : nat) (r : N) : option N :=
  match k with
  | O => Some r
  | S k' => hops step k' r ≫= step
  end.

(** Consecutive elements are router successors: forward traversal order. *)
Definition linked (l : list N) : Prop :=
  ∀ i a b, l !! i = Some a → l !! S i = Some b → nextRoad a = Some b.

(** The router does not branch: predecessor and successor are inverse. *)
Definition non_branching : Prop :=
  ∀ a b, prevRoad a = Some b ↔ nextRoad b = Some a.

(** Every road of the set is at most [n] hops away from the seed. *)
Definition within_reach (n : nat) (roads : gset N) (seed : N) : Prop :=
  ∀ r, r ∈ roads →
    ∃ k, k ≤ n ∧ (hops nextRoad k seed = Some r ∨ hops prevRoad k seed = Some r).

(** What [begin()] promises: an element of the set, none only if empty. *)
Definition begin_spec : Prop :=
  ∀ s, match uset_begin s with Some r => r ∈ s | None => s = ∅ end.

(** [l] holds every road of [roads] exactly once, in forward traversal
    order, and starts and ends on roads of [roads]. *)
Definition chain_of (roads : gset N) (l : list N) : Prop :=
  (∀ r, r ∈ roads → length (filter (λ x, x = r) l) = 1) ∧
  linked l ∧
  (∃ a b, head l = Some a ∧ last l = Some b ∧ a ∈ roads ∧ b ∈ roads).

(** One expansion round in the words of the specification: the router's
    predecessor of the current front is prepended and the router's
    successor of the current back is appended, when they exist. *)
Definition spec_round (l : list N) : list N :=
  option_list (head l ≫= prevRoad) ++ l ++ option_list (last l ≫= nextRoad).

(** The chain after [n] such rounds from the seed. *)
Definition spec_rounds (n : nat) (seed : N) : list N := Nat.iter n spec_round [seed].

(** The roads met by up to [n] steps of the router from [r], nearest
    first; the walk ends where the router names no further road. *)
Fixpoint walk (step : N → option N) (n : nat) (r : N) : list N :=
  match n with
  | O => []
  | S n' =>
    match step r with
    | Some r' => r' :: walk step n' r'
    | None => []
    end
  end.

(** A corridor: every road is followed by its router successor and, read
    from the far end, every road is followed by its router predecessor. *)
Definition corridor (c : list N) : Prop :=
  chained (λ a b, nextRoad a = Some b) c ∧
  chained (λ a b, prevRoad a = Some b) (reverse c).

(** The rounds it takes from the seed to reach the farther end of a
    corridor with [front] before the seed and [back] after it; the loop
    makes one round at least. *)
Definition rounds_needed (front back : list N) : nat :=
  Nat.max 1 (Nat.max (length front) (length back)).

(** *** The expansion loop and its [break] *)

Lemma erase_road_difference (r : N) (remaining : gset N) :
  erase_road r remaining = remaining ∖ {[r]}.
Proof. unfold erase_road. case_decide; set_solver. Qed.

Lemma expandOnce_remaining_subseteq (c : chain) :
  remaining_roads (expandOnce c) ⊆ remaining_roads c.
Proof.
  unfold expandOnce. destruct (sorted_roads c) as [|first_road l]; [done|].
  destruct (prevRoad first_road), (nextRoad _); simpl;
    rewrite ?erase_road_difference; set_solver.
Qed.

Lemma expandOnce_remaining_empty (c : chain) :
  remaining_roads c = ∅ → remaining_roads (expandOnce c) = ∅.
Proof. pose proof (expandOnce_remaining_subseteq c). set_solver. Qed.

Lemma iter_expandOnce_remaining_empty (j k : nat) (c : chain) :
  j ≤ k →
  remaining_roads (Nat.iter j expandOnce c) = ∅ →
  remaining_roads (Nat.iter k expandOnce c) = ∅.
Proof.
  induction 1 as [|k _ IH]; [done|].
  intros Hj. simpl. by apply expandOnce_remaining_empty, IH.
Qed.

(** The loop runs the rounds one by one and leaves after the first round
    that empties [remaining_roads], or after the [n]-th. *)
Lemma expandLoop_rounds (n : nat) (c : chain) :
  0 < n →
  ∃ k, 1 ≤ k ≤ n ∧
    expandLoop n c = Nat.iter k expandOnce c ∧
    (∀ j, 1 ≤ j < k → remaining_roads (Nat.iter j expandOnce c) ≠ ∅) ∧
    (k < n → remaining_roads (Nat.iter k expandOnce c) = ∅).
Proof.
  revert c. induction n as [|n IH]; intros c Hn; [lia|].
  simpl. case_decide as Hempty.
  - exists 1. repeat split; simpl; try done; try lia.
  - destruct n as [|n].
    + exists 1. repeat split; simpl; try done; lia.
    + destruct (IH (expandOnce c)) as (k & Hk & Hloop & Hbefore & Hafter); [lia|].
      exists (S k). rewrite Nat.iter_succ_r. repeat split; try lia; try done.
      * intros j Hj. destruct j as [|j]; [lia|]. rewrite Nat.iter_succ_r.
        destruct j as [|j]; [done|]. apply Hbefore. lia.
      * intros Hlt. apply Hafter. lia.
Qed.

Lemma expandLoop_remaining (n : nat) (c : chain) :
  remaining_roads (expandLoop n c) = ∅ ↔
  remaining_roads (Nat.iter n expandOnce c) = ∅.
Proof.
  destruct n as [|n]; [done|].
  destruct (expandLoop_rounds (S n) c) as (k & Hk & -> & _ & Hafter); [lia|].
  split.
  - apply iter_expandOnce_remaining_empty. lia.
  - intros Hn. destruct (decide (k = S n)) as [->|]; [done|]. apply Hafter. lia.
Qed.

(** *** Router hops *)

Lemma hops_succ_l (step : N → option N) (k : nat) (r : N) :
  hops step (S k) r = step r ≫= hops step k.
Proof.
  induction k as [|k IH]; simpl in *.
  - by destruct (step r).
  - rewrite IH. by destruct (step r).
Qed.

Lemma hops_None_le (step : N → option N) (j k : nat) (r : N) :
  j ≤ k → hops step j r = None → hops step k r = None.
Proof. induction 1 as [|k _ IH]; [done|]. intros Hj. simpl. by rewrite IH. Qed.

(** *** Trimming *)

Lemma pop_front_outside_split (roads : gset N) (l : list N) :
  ∃ l1, l = l1 ++ pop_front_outside roads l ∧
    (∀ r, r ∈ l1 → r ∉ roads) ∧
    (∀ r, head (pop_front_outside roads l) = Some r → r ∈ roads).
Proof.
  induction l as [|a l (l1 & Heq & Hout & Hhead)]; simpl.
  - exists []. split_and!; [done|set_solver|done].
  - case_decide as Ha.
    + exists []. split_and!; [done|set_solver|]. by intros r [= <-].
    + exists (a :: l1). split_and!; [by rewrite Heq at 1|set_solver|done].
Qed.

Lemma pop_back_outside_split (roads : gset N) (l : list N) :
  ∃ l2, l = pop_back_outside roads l ++ l2 ∧
    (∀ r, r ∈ l2 → r ∉ roads) ∧
    (∀ r, last (pop_back_outside roads l) = Some r → r ∈ roads).
Proof.
  unfold pop_back_outside.
  destruct (pop_front_outside_split roads (reverse l)) as (l1 & Heq & Hout & Hhead).
  exists (reverse l1). split_and!.
  - rewrite <- reverse_app, <- Heq. by rewrite reverse_involutive.
  - intros r Hr. apply Hout. by apply elem_of_reverse.
  - intros r. rewrite last_reverse. apply Hhead.
Qed.

(** *** What the deque holds after [n] rounds *)

Lemma expandOnce_unfold (c : chain) (first_road : N) (l : list N) :
  sorted_roads c = first_road :: l →
  ∃ last_road, last (sorted_roads c) = Some last_road ∧
    sorted_roads (expandOnce c)
    = option_list (prevRoad first_road) ++ sorted_roads c
      ++ option_list (nextRoad last_road) ∧
    remaining_roads (expandOnce c)
    = remaining_roads c ∖ list_to_set (option_list (prevRoad first_road))
      ∖ list_to_set (option_list (nextRoad last_road)).
Proof.
  intros Hc. unfold expandOnce. rewrite Hc.
  destruct (last (first_road :: l)) as [last_road|] eqn:Hlast.
  2: { by rewrite last_cons in Hlast; destruct (last l). }
  exists last_road. split; [done|]. simpl.
  destruct (prevRoad first_road), (nextRoad last_road); simpl;
    rewrite ?erase_road_difference, ?Hc, ?app_nil_r; split; try done; set_solver.
Qed.

(** The seed stays in the deque, so trimming stops at roads of the set. *)
Lemma iter_expandOnce_seed (roads : gset N) (seed : N) (k : nat) :
  seed ∈ sorted_roads (Nat.iter k expandOnce (seedChain roads seed)).
Proof.
  induction k as [|k IH]; simpl; [by left|].
  destruct (sorted_roads (Nat.iter k expandOnce (seedChain roads seed)))
    as [|first_road l] eqn:Hc; [by apply elem_of_nil in IH|].
  destruct (expandOnce_unfold _ _ _ Hc) as (last_road & _ & -> & _).
  rewrite Hc. set_solver.
Qed.

Lemma sortRoads_Ok_ends (roads : gset N) (l : list N) :
  begin_spec → sortRoads roads = Ok l →
  ∃ a b, head l = Some a ∧ last l = Some b ∧ a ∈ roads ∧ b ∈ roads.
Proof.
  intros Hbegin. unfold sortRoads. specialize (Hbegin roads).
  destruct (uset_begin roads) as [seed|]; [|done]. cbv zeta.
  destruct (expandLoop_rounds 5 (seedChain roads seed)) as (k & _ & -> & _); [lia|].
  case_decide; [done|]. intros [= <-].
  pose proof (iter_expandOnce_seed roads seed k) as Hseed.
  set (l0 := sorted_roads (Nat.iter k expandOnce (seedChain roads seed))) in *.
  destruct (pop_front_outside_split roads l0) as (p & Hl0 & Hp & _).
  destruct (pop_back_outside_split roads (pop_front_outside roads l0))
    as (q & Hl1 & Hq & Hlast).
  destruct (pop_front_outside_split roads l0) as (_ & _ & _ & Hhead).
  set (l := pop_back_outside roads (pop_front_outside roads l0)) in *.
  rewrite Hl1 in Hl0, Hhead.
  assert (seed ∈ l) as Hin by (rewrite Hl0 in Hseed; set_solver).
  destruct l as [|a l'] eqn:El; [by apply elem_of_nil in Hin|].
  destruct (last (a :: l')) as [b|] eqn:Hb.
  2: { by rewrite last_cons in Hb; destruct (last l'). }
  exists a, b. split_and!; [done|done|by apply Hhead|by apply Hlast].
Qed.

(** *** The sorted chain *)

Lemma filter_eq_not_elem_of (l : list N) (r : N) :
  r ∉ l → filter (λ x, x = r) l = [].
Proof.
  induction l as [|a l IH]; [done|].
  intros [Hne Hr]%not_elem_of_cons. rewrite filter_cons.
  rewrite decide_False by done. by apply IH.
Qed.

Lemma NoDup_filter_eq_length (l : list N) (r : N) :
  NoDup l → r ∈ l → length (filter (λ x, x = r) l) = 1.
Proof.
  induction 1 as [|a l Ha Hl IH]; [by intros ?%elem_of_nil|].
  rewrite filter_cons. intros [->|Hr]%elem_of_cons.
  - rewrite decide_True by done. simpl. by rewrite filter_eq_not_elem_of.
  - rewrite decide_False by (by intros ->). by apply IH.
Qed.

(** *** Walks of the router and the rounds of the specification *)

Lemma walk_snoc (step : N → option N) (n : nat) (r : N) :
  walk step (S n) r = walk step n r ++ option_list (hops step (S n) r).
Proof.
  revert r. induction n as [|n IH]; intros r.
  - simpl. by destruct (step r).
  - rewrite hops_succ_l.
    change (walk step (S (S n)) r)
      with (match step r with Some r' => r' :: walk step (S n) r' | None => [] end).
    change (walk step (S n) r)
      with (match step r with Some r' => r' :: walk step n r' | None => [] end).
    destruct (step r) as [r'|]; [|done]. by rewrite IH.
Qed.

Lemma last_walk (step : N → option N) (n : nat) (r : N) :
  last (r :: walk step n r) ≫= step = hops step (S n) r.
Proof.
  induction n as [|n IH]; [done|].
  rewrite walk_snoc. change (hops step (S (S n)) r) with (hops step (S n) r ≫= step).
  destruct (hops step (S n) r) as [a|] eqn:Ha; simpl option_list.
  - by rewrite app_comm_cons, last_snoc.
  - by rewrite app_nil_r, IH.
Qed.

Lemma walk_lookup (step : N → option N) (n i : nat) (r a : N) :
  walk step n r !! i = Some a → i < n ∧ hops step (S i) r = Some a.
Proof.
  revert r i. induction n as [|n IH]; intros r i; [done|].
  rewrite hops_succ_l. simpl. destruct (step r) as [r'|]; [|done].
  destruct i as [|i]; simpl.
  - intros [= <-]. split; [lia|done].
  - intros [? ?]%IH. split; [lia|done].
Qed.

Lemma elem_of_walk (step : N → option N) (n : nat) (r a : N) :
  a ∈ walk step n r ↔ ∃ j, 1 ≤ j ≤ n ∧ hops step j r = Some a.
Proof.
  split.
  - intros [i [? ?]%walk_lookup]%list_elem_of_lookup. exists (S i). split; [lia|done].
  - revert r. induction n as [|n IH]; intros r (j & Hj & Ha); [lia|].
    destruct j as [|j]; [lia|]. rewrite hops_succ_l in Ha. simpl.
    destruct (step r) as [r'|]; [|done]. simpl in Ha.
    destruct j as [|j]; [injection Ha as <-; by left|].
    right. apply IH. exists (S j). split; [lia|done].
Qed.

Lemma walk_take (step : N → option N) (n m : nat) (r : N) :
  n ≤ m → walk step n r = take n (walk step m r).
Proof.
  revert m r. induction n as [|n IH]; intros m r Hle; [done|].
  destruct m as [|m]; [lia|]. simpl. destruct (step r) as [r'|]; [|done].
  simpl. f_equal. apply IH. lia.
Qed.

Lemma walk_chained (step : N → option N) (l : list N) (r : N) :
  chained (λ a b, step a = Some b) (r :: l) → walk step (length l) r = l.
Proof.
  revert r. induction l as [|a l IH]; intros r Hl; [done|].
  simpl. rewrite (Hl 0 r a eq_refl eq_refl). f_equal. apply IH.
  intros i x y. apply (Hl (S i)).
Qed.

Lemma spec_rounds_walk (n : nat) (seed : N) :
  spec_rounds n seed = reverse (walk prevRoad n seed) ++ seed :: walk nextRoad n seed.
Proof.
  unfold spec_rounds. induction n as [|n IH]; [done|].
  rewrite Nat.iter_succ, IH. unfold spec_round.
  rewrite !walk_snoc, reverse_app, <- !last_walk.
  assert (reverse (walk prevRoad n seed) ++ seed :: walk nextRoad n seed
          = reverse (seed :: walk prevRoad n seed) ++ walk nextRoad n seed) as Hfront.
  { by rewrite reverse_cons, <- app_assoc. }
  assert (head (reverse (walk prevRoad n seed) ++ seed :: walk nextRoad n seed)
          = last (seed :: walk prevRoad n seed)) as ->.
  { rewrite Hfront, <- head_reverse.
    destruct (reverse (seed :: walk prevRoad n seed)) as [|a l] eqn:Hrev; [|done].
    by apply (f_equal length) in Hrev; rewrite length_reverse in Hrev. }
  assert (last (reverse (walk prevRoad n seed) ++ seed :: walk nextRoad n seed)
          = last (seed :: walk nextRoad n seed)) as ->.
  { rewrite last_app. by destruct (last (seed :: walk nextRoad n seed)) eqn:Hlast;
      [|rewrite last_cons in Hlast; destruct (last (walk nextRoad n seed))]. }
  assert (∀ o : option N, reverse (option_list o) = option_list o) as Hopt by (by intros []).
  rewrite Hopt. by rewrite <- !app_assoc.
Qed.

Lemma spec_rounds_cons (n : nat) (seed : N) :
  ∃ first_road l, spec_rounds n seed = first_road :: l.
Proof.
  rewrite spec_rounds_walk.
  destruct (reverse (walk prevRoad n seed)) as [|a l]; simpl; eauto.
Qed.

(** What the code's rounds leave is what the rounds of the specification
    make: the same deque, and as remaining set the input roads that are not
    in it. *)
Lemma iter_expandOnce_spec_rounds (roads : gset N) (seed : N) (n : nat) :
  sorted_roads (Nat.iter n expandOnce (seedChain roads seed)) = spec_rounds n seed ∧
  remaining_roads (Nat.iter n expandOnce (seedChain roads seed))
  = roads ∖ list_to_set (spec_rounds n seed).
Proof.
  induction n as [|n [IHs IHr]].
  - simpl. split; [done|]. set_solver.
  - destruct (spec_rounds_cons n seed) as (first_road & l & Hc).
    rewrite Nat.iter_succ.
    destruct (expandOnce_unfold (Nat.iter n expandOnce (seedChain roads seed)) first_road l)
      as (last_road & Hlast & -> & ->); [congruence|].
    rewrite IHr. rewrite IHs in Hlast |- *.
    assert (spec_rounds (S n) seed
            = option_list (prevRoad first_road) ++ spec_rounds n seed
              ++ option_list (nextRoad last_road)) as ->.
    { unfold spec_rounds at 1. rewrite Nat.iter_succ. fold (spec_rounds n seed).
      unfold spec_round. rewrite Hlast, Hc. done. }
    split; [done|]. rewrite !list_to_set_app_L. set_solver.
Qed.

Lemma elem_of_spec_rounds (n : nat) (seed r : N) :
  r ∈ spec_rounds n seed ↔
  ∃ k, k ≤ n ∧ (hops nextRoad k seed = Some r ∨ hops prevRoad k seed = Some r).
Proof.
  rewrite spec_rounds_walk, elem_of_app, elem_of_reverse, elem_of_cons, !elem_of_walk.
  split.
  - intros [(j & ? & ?)|[->|(j & ? & ?)]].
    + exists j. split; [lia|by right].
    + exists 0. split; [lia|by left].
    + exists j. split; [lia|by left].
  - intros (k & Hk & Hr). destruct k as [|k].
    + right. left. simpl in Hr. by destruct Hr as [[= <-]|[= <-]].
    + destruct Hr as [Hr|Hr]; [right; right|left]; exists (S k); (split; [lia|done]).
Qed.

(** C6. [sortRoads] throws the cannot-be-sorted error exactly when, after
    five rounds that each prepend the router's predecessor of the front and
    append the router's successor of the back, some input road is still not
    in the chain, that is, when some input road is more than five hops from
    the seed.  The loop leaves after the first round that brings the last
    input road into the chain: the chain returned is what that round left,
    trimmed at both ends. *)
Theorem sortRoads_unsortable_iff (roads : gset N) :
  (sortRoads roads = Throw RoadsCannotBeSorted ↔
   ∃ seed, uset_begin roads = Some seed ∧
     ∃ r, r ∈ roads ∧ r ∉ spec_rounds 5 seed) ∧
  (∀ l, sortRoads roads = Ok l →
   ∃ seed k p q,
     uset_begin roads = Some seed ∧ 1 ≤ k ≤ 5 ∧
     (∀ r, r ∈ roads → r ∈ spec_rounds k seed) ∧
     (∀ j, 1 ≤ j < k → ∃ r, r ∈ roads ∧ r ∉ spec_rounds j seed) ∧
     spec_rounds k seed = p ++ l ++ q ∧
     (∀ r, r ∈ p → r ∉ roads) ∧ (∀ r, r ∈ q → r ∉ roads)) ∧
  (∀ n seed r,
     r ∈ spec_rounds n seed ↔
     ∃ k, k ≤ n ∧ (hops nextRoad k seed = Some r ∨ hops prevRoad k seed = Some r)).
Proof.
  assert (∀ seed n,
            remaining_roads (Nat.iter n expandOnce (seedChain roads seed)) ≠ ∅ ↔
            ∃ r, r ∈ roads ∧ r ∉ spec_rounds n seed) as Hleft.
  { intros seed n. destruct (iter_expandOnce_spec_rounds roads seed n) as [_ ->]. split.
    - intros [r Hr]%set_choose_L. exists r. set_solver.
    - intros (r & ? & ?). set_solver. }
  split_and!.
  - unfold sortRoads. destruct (uset_begin roads) as [seed|].
    + cbv zeta. pose proof (expandLoop_remaining 5 (seedChain roads seed)) as Hrem.
      case_decide as Hloop; split.
      * intros _. exists seed. split; [done|]. apply Hleft. by rewrite <- Hrem.
      * done.
      * done.
      * intros (seed' & [= <-] & Hne%Hleft). rewrite <- Hrem in Hne. done.
    + split; [done|]. by intros (seed & ? & _).
  - intros l. unfold sortRoads. destruct (uset_begin roads) as [seed|]; [|done]. cbv zeta.
    destruct (expandLoop_rounds 5 (seedChain roads seed)) as (k & Hk & -> & Hearly & _);
      [lia|].
    case_decide as Hrem; [done|]. intros Heq. injection Heq as <-.
    destruct (iter_expandOnce_spec_rounds roads seed k) as [Hsorted Hremaining].
    rewrite Hsorted. rewrite Hremaining in Hrem.
    destruct (pop_front_outside_split roads (spec_rounds k seed)) as (p & Hl0 & Hp & _).
    destruct (pop_back_outside_split roads (pop_front_outside roads (spec_rounds k seed)))
      as (q & Hl1 & Hq & _).
    exists seed, k, p, q. split_and!; [done|lia|lia| | |by rewrite <- Hl1|done..].
    + intros r Hr. destruct (decide (r ∈ spec_rounds k seed)) as [|Hout]; [done|].
      set_solver.
    + intros j Hj. by apply Hleft, Hearly.
  - apply elem_of_spec_rounds.
Qed.

(** *** The corridor *)

Lemma pop_front_outside_app (roads : gset N) (p l : list N) :
  (∀ r, r ∈ p → r ∉ roads) →
  pop_front_outside roads (p ++ l) = pop_front_outside roads l.
Proof.
  induction p as [|a p IH]; intros Hp; [done|]. simpl.
  rewrite decide_False by (apply Hp; by left). apply IH. intros r Hr. apply Hp. by right.
Qed.

Lemma pop_front_outside_head (roads : gset N) (l : list N) (a : N) :
  head l = Some a → a ∈ roads → pop_front_outside roads l = l.
Proof. destruct l as [|a' l]; [done|]. intros [= ->] Ha. simpl. by rewrite decide_True. Qed.

(** Trimming takes off what lies outside of the input at either end and
    stops at the ends of the corridor. *)
Lemma trim_corridor (roads : gset N) (p c q : list N) (a b : N) :
  (∀ r, r ∈ p → r ∉ roads) → (∀ r, r ∈ q → r ∉ roads) →
  head c = Some a → last c = Some b → a ∈ roads → b ∈ roads →
  pop_back_outside roads (pop_front_outside roads (p ++ c ++ q)) = c.
Proof.
  intros Hp Hq Hhead Hlast Ha Hb.
  rewrite pop_front_outside_app by done.
  rewrite (pop_front_outside_head roads (c ++ q) a); [|by destruct c|done].
  unfold pop_back_outside. rewrite reverse_app, pop_front_outside_app.
  - rewrite (pop_front_outside_head roads (reverse c) b); [|by rewrite head_reverse|done].
    apply reverse_involutive.
  - intros r Hr. rewrite elem_of_reverse in Hr. by apply Hq.
Qed.

Lemma last_not_in_take (l : list N) (a : N) (k : nat) :
  NoDup l → last l = Some a → k < length l → a ∉ take k l.
Proof.
  intros Hnodup Hlast Hk [i Hi]%list_elem_of_lookup.
  rewrite last_lookup in Hlast.
  pose proof (lookup_lt_Some _ _ _ Hi) as Hlt. rewrite length_take in Hlt.
  rewrite lookup_take_lt in Hi by lia.
  pose proof (NoDup_lookup _ _ _ _ Hnodup Hi Hlast). lia.
Qed.

(** C3. For input roads that lie on a corridor of the router (a sequence
    of roads without repetition from the first to the last input road, each
    road the router's successor of the one before it and the router's
    predecessor of the one after it) with the seed at most five roads from
    either end, [sortRoads] returns that corridor: every input road exactly
    once, in forward traversal order, starting and ending on input roads;
    provided that the hops the rounds make beyond the nearer end of the
    corridor, while they reach the farther one, meet no input road. *)
Theorem sortRoads_corridor (roads : gset N) (seed : N) (front back : list N) :
  uset_begin roads = Some seed →
  corridor (front ++ seed :: back) →
  NoDup (front ++ seed :: back) →
  (∀ r, r ∈ roads → r ∈ front ++ seed :: back) →
  (∃ a b, head (front ++ seed :: back) = Some a ∧
          last (front ++ seed :: back) = Some b ∧ a ∈ roads ∧ b ∈ roads) →
  rounds_needed front back ≤ 5 →
  (∀ j r, length front < j ≤ rounds_needed front back →
          hops prevRoad j seed = Some r → r ∉ roads) →
  (∀ j r, length back < j ≤ rounds_needed front back →
          hops nextRoad j seed = Some r → r ∉ roads) →
  sortRoads roads = Ok (front ++ seed :: back) ∧
  chain_of roads (front ++ seed :: back).
Proof.
  intros Hseed [Hnext Hprev] Hnodup Hall (a & b & Hhead & Hlast & Ha & Hb) Hreach Hpast Hfuture.
  set (K := rounds_needed front back) in *.
  assert (1 ≤ K ∧ length front ≤ K ∧ length back ≤ K ∧
          (K = 1 ∨ K = length front ∨ K = length back)) as (HK1 & HKf & HKb & HKmax)
    by (unfold K, rounds_needed; lia).
  (* the walks from the seed run along the corridor and then beyond it *)
  assert (walk nextRoad (length back) seed = back) as Hwn.
  { apply walk_chained. by apply chained_app_inv in Hnext as [_ ?]. }
  assert (walk prevRoad (length front) seed = reverse front) as Hwp.
  { rewrite <- (length_reverse front). apply walk_chained.
    rewrite reverse_app, reverse_cons, <- app_assoc in Hprev.
    by apply chained_app_inv in Hprev as [_ ?]. }
  assert (∀ k, length back ≤ k → k ≤ K →
            ∃ q, walk nextRoad k seed = back ++ q ∧ ∀ r, r ∈ q → r ∉ roads) as Hforward.
  { intros k Hk HkK. exists (drop (length back) (walk nextRoad k seed)). split.
    - rewrite <- (take_drop (length back) (walk nextRoad k seed)) at 1.
      by rewrite <- walk_take, Hwn by done.
    - intros r [i Hi]%list_elem_of_lookup. rewrite lookup_drop in Hi.
      apply walk_lookup in Hi as [? Hi].
      apply (Hfuture (S (length back + i)) r); [lia|done]. }
  assert (∀ k, length front ≤ k → k ≤ K →
            ∃ p, walk prevRoad k seed = reverse front ++ p ∧ ∀ r, r ∈ p → r ∉ roads)
    as Hbackward.
  { intros k Hk HkK. exists (drop (length front) (walk prevRoad k seed)). split.
    - rewrite <- (take_drop (length front) (walk prevRoad k seed)) at 1.
      by rewrite <- walk_take, Hwp by done.
    - intros r [i Hi]%list_elem_of_lookup. rewrite lookup_drop in Hi.
      apply walk_lookup in Hi as [? Hi].
      apply (Hpast (S (length front + i)) r); [lia|done]. }
  destruct (Hforward K) as (q & HqK & Hq); [done..|].
  destruct (Hbackward K) as (p & HpK & Hp); [done..|].
  assert (spec_rounds K seed = reverse p ++ (front ++ seed :: back) ++ q) as HroundsK.
  { rewrite spec_rounds_walk, HqK, HpK, reverse_app, reverse_involutive.
    by rewrite <- !app_assoc. }
  apply NoDup_app in Hnodup as (Hnodup_front & Hfront_back & [Hseed_back Hnodup_back]%NoDup_cons).
  (* a round short of [K] misses an end of the corridor *)
  assert (∀ k, 1 ≤ k < K → ∃ r, r ∈ roads ∧ r ∉ spec_rounds k seed) as Hshort.
  { intros k Hk.
    assert (∀ r, r ∈ walk nextRoad k seed → r ∈ back ∨ r ∉ roads) as Hin_next.
    { intros r Hr. rewrite (walk_take nextRoad k K), HqK in Hr by lia.
      apply (subseteq_take k) in Hr. apply elem_of_app in Hr as [?|?]; auto. }
    assert (∀ r, r ∈ walk prevRoad k seed → r ∈ front ∨ r ∉ roads) as Hin_prev.
    { intros r Hr. rewrite (walk_take prevRoad k K), HpK in Hr by lia.
      apply (subseteq_take k) in Hr.
      apply elem_of_app in Hr as [Hr|?]; [rewrite elem_of_reverse in Hr|]; auto. }
    destruct HKmax as [?|[HK|HK]]; [lia| |].
    - (* the front end is the farther one *)
      exists a. split; [done|].
      assert (last (reverse front) = Some a) as Hlast_front.
      { rewrite last_reverse. destruct front as [|a' front']; [simpl in *; lia|].
        by simplify_eq/=. }
      assert (a ∈ front) as Hafront.
      { apply elem_of_reverse. rewrite last_lookup in Hlast_front.
        by eapply list_elem_of_lookup_2. }
      rewrite spec_rounds_walk.
      intros [Hin|[->|Hin]%elem_of_cons]%elem_of_app; [rewrite elem_of_reverse in Hin|..].
      + rewrite (walk_take prevRoad k (length front)), Hwp in Hin by lia.
        revert Hin. apply last_not_in_take; [by rewrite reverse_Permutation|done|].
        rewrite length_reverse. lia.
      + apply (Hfront_back _ Hafront). by left.
      + destruct (Hin_next _ Hin) as [?|?]; [|done].
        apply (Hfront_back _ Hafront). by right.
    - (* the back end is the farther one *)
      exists b. split; [done|].
      assert (last back = Some b) as Hlast_back.
      { rewrite last_app in Hlast. rewrite last_cons in Hlast.
        destruct (last back) as [b'|] eqn:Hb'; [done|].
        apply last_None in Hb'. subst back. simpl in *. lia. }
      assert (b ∈ back) as Hbback.
      { rewrite last_lookup in Hlast_back. by eapply list_elem_of_lookup_2. }
      rewrite spec_rounds_walk.
      intros [Hin|[->|Hin]%elem_of_cons]%elem_of_app; [rewrite elem_of_reverse in Hin|..].
      + destruct (Hin_prev _ Hin) as [Hbfront|?]; [|done].
        apply (Hfront_back _ Hbfront). by right.
      + done.
      + rewrite (walk_take nextRoad k (length back)), Hwn in Hin by lia.
        revert Hin. apply last_not_in_take; [done..|lia]. }
  (* so the loop makes exactly [K] rounds *)
  assert (remaining_roads (Nat.iter K expandOnce (seedChain roads seed)) = ∅) as HemptyK.
  { destruct (iter_expandOnce_spec_rounds roads seed K) as [_ ->].
    rewrite HroundsK. apply elem_of_equiv_empty_L.
    intros r [Hr Hout]%elem_of_difference. apply Hout, elem_of_list_to_set.
    apply elem_of_app. right. apply elem_of_app. left. by apply Hall. }
  assert (expandLoop 5 (seedChain roads seed) = Nat.iter K expandOnce (seedChain roads seed))
    as Hloop.
  { destruct (expandLoop_rounds 5 (seedChain roads seed)) as (k & Hk & -> & Hearly & Hdone);
      [lia|].
    destruct (Nat.lt_trichotomy k K) as [Hlt|[->|Hgt]]; [|done|].
    - destruct (Hshort k) as (r & Hr & Hout); [lia|].
      assert (remaining_roads (Nat.iter k expandOnce (seedChain roads seed)) = ∅) as Hempty
        by (apply Hdone; lia).
      destruct (iter_expandOnce_spec_rounds roads seed k) as [_ Hrem].
      rewrite Hrem in Hempty. set_solver.
    - by destruct (Hearly K). }
  split.
  - unfold sortRoads. rewrite Hseed. cbv zeta. rewrite Hloop.
    rewrite decide_False by (by intros []).
    destruct (iter_expandOnce_spec_rounds roads seed K) as [-> _].
    rewrite HroundsK. f_equal. apply (trim_corridor roads _ _ _ a b); try done.
    intros r Hr. rewrite elem_of_reverse in Hr. by apply Hp.
  - split_and!.
    + intros r Hr. apply NoDup_filter_eq_length; [|by apply Hall].
      apply NoDup_app. split_and!; [done..|]. by apply NoDup_cons.
    + exact Hnext.
    + by exists a, b.
Qed.

End SortRoads.

(** *** Concrete routers *)

(** A concrete [begin()]: the first element in [elements] order. *)
Definition elements_begin (s : gset N) : option N := head (elements s).

(** Roads [0 → 1 → ... → n-1] in a line. *)
Definition line_router (n : N) : Router :=
  {| prevRoad := λ r, if decide (0 < r ∧ r < n)%N then Some (r - 1)%N else None;
     nextRoad := λ r, if decide (r + 1 < n)%N then Some (r + 1)%N else None |}.

(** Roads [0 → 1 → ... → n-1 → 0] around a ring, e.g. a roundabout. *)
Definition ring_router (n : N) : Router :=
  {| prevRoad := λ r, if decide (r < n)%N then Some (if decide (r = 0%N) then n - 1 else r - 1)%N else None;
     nextRoad := λ r, if decide (r < n)%N then Some (if decide (r + 1 = n)%N then 0 else r + 1)%N else None |}.

Lemma elements_begin_spec : begin_spec elements_begin.
Proof.
  intros s. unfold elements_begin.
  destruct (elements s) as [|r l] eqn:Hs; simpl.
  - by apply elements_empty_inv in Hs as ->%leibniz_equiv.
  - apply elem_of_elements. rewrite Hs. by left.
Qed.

Lemma ring_router_non_branching (n : N) : @non_branching (ring_router n).
Proof.
  intros a b. simpl. repeat case_decide; split; intros [=]; try lia; f_equal; lia.
Qed.

(** Finds the number of hops, up to two, for each road of a concrete set. *)
Ltac solve_within_reach :=
  let r := fresh "r" in let Hr := fresh "Hr" in
  intros r Hr; set_unfold in Hr; destruct_or!; subst;
  first [ by (exists 0; split; [lia|left])
        | by (exists 1; split; [lia|left]) | by (exists 1; split; [lia|right])
        | by (exists 2; split; [lia|left]) | by (exists 2; split; [lia|right]) ].

(** Roads 3 and 9 of a line: from seed 9 five rounds reach roads 4 to 14. *)
Lemma sortRoads_unsortable_iff_witness :
  @sortRoads (line_router 20) elements_begin {[3; 9]}%N = Throw RoadsCannotBeSorted.
Proof.
  apply (proj2 (proj1 (@sortRoads_unsortable_iff (line_router 20) elements_begin
                         {[3; 9]}%N))).
  exists 9%N. split; [reflexivity|]. exists 3%N. split; [set_solver|].
  intros Hin. vm_compute in Hin. set_solver.
Defined.

(** Roads 3 to 6 of a ring of twenty roads, seed 6: three rounds reach
    back to road 3 and run on to roads 7, 8 and 9, which are trimmed. *)
Lemma sortRoads_corridor_witness :
  @sortRoads (ring_router 20) elements_begin {[3; 4; 5; 6]}%N = Ok [3; 4; 5; 6]%N ∧
  @chain_of (ring_router 20) {[3; 4; 5; 6]}%N [3; 4; 5; 6]%N.
Proof.
  apply (@sortRoads_corridor (ring_router 20) elements_begin {[3; 4; 5; 6]}%N
           6%N [3; 4; 5]%N []).
  - reflexivity.
  - split; intros [|[|[|i]]] a b Ha Hb; simplify_eq/=; done.
  - repeat (apply NoDup_cons; split; [set_solver|]). apply NoDup_nil_2.
  - intros r Hr. set_solver.
  - exists 3%N, 6%N. split_and!; [done|done|set_solver..].
  - unfold rounds_needed. simpl. lia.
  - unfold rounds_needed. simpl. lia.
  - unfold rounds_needed. simpl. intros j r Hj Hr.
    assert (j = 1 ∨ j = 2 ∨ j = 3) as Hcases by lia.
    destruct_or!; subst; vm_compute in Hr; injection Hr as <-; set_solver.
Defined.

(** On a roundabout of four roads, all of them carrying vehicles, every
    road is within two hops of any seed, yet the chain closes on itself.
    From seed 2 the first round makes [1; 2; 3]; the second prepends road
    0, which empties the remaining set, and still appends the successor
    of road 3, road 0 again. *)
Lemma sortRoads_ring_twice :
  let roads : gset N := {[0; 1; 2; 3]}%N in
  begin_spec elements_begin ∧
  elements_begin roads = Some 2%N ∧
  @non_branching (ring_router 4) ∧
  (∀ seed, seed ∈ roads → @within_reach (ring_router 4) 5 roads seed) ∧
  @sortRoads (ring_router 4) elements_begin roads = Ok [0; 1; 2; 3; 0]%N ∧
  ¬ @chain_of (ring_router 4) roads [0; 1; 2; 3; 0]%N.
Proof.
  split_and!.
  - apply elements_begin_spec.
  - reflexivity.
  - apply ring_router_non_branching.
  - intros seed Hseed. set_unfold in Hseed. destruct_or!; subst; solve_within_reach.
  - reflexivity.
  - intros [Honce _]. specialize (Honce 0%N). discriminate Honce. set_solver.
Qed.

(** ** The lattice and vehicle registration *)

(** Modelled from the spec: the base class [LatticeNode] of
    [WaypointNodeWithVehicle] is not among the sources; the spec has nodes
    that "expose forward/backward neighbor links", and registration reads
    the forward one through [front()], a [weak_ptr].  The other field is
    [vehicle_] of [WaypointNodeWithVehicle], the id of the occupying
    vehicle.  The waypoint of the node is its key in the store; its
    [distance_] plays no part in registration. *)
Record Node := {
  front : option N;
  vehicle : option N;
}.

(** The members of [TrafficLattice] that registration reads or writes:
    the nodes owned by the base lattice, its resolution, and the table from
    a vehicle id to the nodes the vehicle occupies, rear to head. *)
Record TrafficLattice := {
  nodes_ : gmap N Node;
  longitudinal_resolution_ : double;
  vehicle_to_nodes_table_ : gmap N (list N);
}.

(** [node->vehicle() = id] *)
Definition set_vehicle (id : N) (node : Node) : Node :=
  {| front := front node; vehicle := Some id |}.

(** [node->front().lock()]: the node ahead, if the link is set and the node
    it points to is alive. *)
Definition front_lock (nodes : gmap N Node) (n : N) : option N :=
  node ← nodes !! n;
  m ← front node;
  _ ← nodes !! m;
  Some m.

(** The [while] loop of [registerVehicles] with the [emplace_back] after
    it: the nodes from [next_node] up to [head_node].  A walk that passes
    more nodes than the lattice owns is caught in a cycle of links and the
    loop never exits. *)
Fixpoint collectNodes (fuel : nat) (nodes : gmap N Node) (head_node next_node : N)
  : result (list N) :=
  if decide (next_node = head_node) then Ok [head_node]
  else
    match fuel with
    | O => Throw NonTermination
    | S fuel' =>
      match front_lock nodes next_node with
      | Some n => cons next_node <$> collectNodes fuel' nodes head_node n
      | None => Throw NodesNotConnected
      end
    end.

(** The [for (auto& node : nodes)] loop: [Ok false] is its [return false],
    [Ok true] is falling through.  Locking a node that is gone and
    dereferencing the result is undefined. *)
Fixpoint occupyNodes (id : N) (nodes : list N) (store : gmap N Node)
  : gmap N Node * result bool :=
  match nodes with
  | [] => (store, Ok true)
  | n :: nodes' =>
    match store !! n with
    | None => (store, Throw UndefinedBehaviour)
    | Some node =>
      match vehicle node with
      | Some _ => (store, Ok false)
      | None => occupyNodes id nodes' (alter (set_vehicle id) n store)
      end
    end
  end.

(** *** Marking nodes *)

(** The front links of a store; marking vehicles leaves them alone. *)
Definition links (store : gmap N Node) : gmap N (option N) := front <$> store.

(** All of [nodes] marked with [id]. *)
Definition mark_all (id : N) (nodes : list N) (store : gmap N Node) : gmap N Node :=
  foldl (λ store n, alter (set_vehicle id) n store) store nodes.

(** The node is alive and carries no vehicle. *)
Definition unmarked (store : gmap N Node) (n : N) : Prop :=
  ∃ node, store !! n = Some node ∧ vehicle node = None.

Lemma lookup_mark_all (id : N) (nodes : list N) (store : gmap N Node) (n : N) :
  mark_all id nodes store !! n
  = if decide (n ∈ nodes) then set_vehicle id <$> store !! n else store !! n.
Proof.
  revert store. induction nodes as [|a nodes IH]; intros store; simpl.
  - done.
  - fold (mark_all id nodes (alter (set_vehicle id) a store)).
    rewrite IH, lookup_alter.
    destruct (decide (a = n)) as [->|Hne].
    + rewrite (decide_True (P := n ∈ n :: nodes)) by left.
      case_decide; [|done]. by destruct (store !! n).
    + repeat case_decide; set_solver.
Qed.

Lemma links_mark_all (id : N) (nodes : list N) (store : gmap N Node) :
  links (mark_all id nodes store) = links store.
Proof.
  apply map_eq. intros n. unfold links.
  rewrite !lookup_fmap, lookup_mark_all. case_decide; [|done].
  by destruct (store !! n).
Qed.

Lemma front_lock_links (store store' : gmap N Node) (n : N) :
  links store = links store' → front_lock store n = front_lock store' n.
Proof.
  intros Hlinks. unfold front_lock.
  assert (∀ m, front <$> store !! m = front <$> store' !! m) as Hm.
  { intros m. unfold links in Hlinks. by rewrite <- !lookup_fmap, Hlinks. }
  specialize (Hm n) as Hn.
  destruct (store !! n) as [node|], (store' !! n) as [node'|]; simplify_eq/=; [|done].
  rewrite Hn. destruct (front node') as [m|]; simpl; [|done].
  specialize (Hm m). by destruct (store !! m), (store' !! m).
Qed.

Lemma size_links (store store' : gmap N Node) :
  links store = links store' → size store = size store'.
Proof.
  intros Hlinks. unfold links in Hlinks.
  by rewrite <- (map_size_fmap front store), Hlinks, map_size_fmap.
Qed.

Lemma collectNodes_links (fuel : nat) (store store' : gmap N Node) (head_node n : N) :
  links store = links store' →
  collectNodes fuel store head_node n = collectNodes fuel store' head_node n.
Proof.
  intros Hlinks. revert n. induction fuel as [|fuel IH]; intros n; simpl; [done|].
  rewrite (front_lock_links store store') by done.
  case_decide; [done|]. destruct (front_lock store' n); [|done]. by rewrite IH.
Qed.

(** The marking loop falls through exactly when the nodes are pairwise
    distinct and all free, and then all of them carry [id]. *)
Lemma occupyNodes_true (id : N) (nodes : list N) (store store' : gmap N Node) :
  occupyNodes id nodes store = (store', Ok true) ↔
  NoDup nodes ∧ (∀ n, n ∈ nodes → unmarked store n) ∧ store' = mark_all id nodes store.
Proof.
  revert store. induction nodes as [|a nodes IH]; intros store; simpl.
  - split.
    + intros [= <-]. split_and!; [constructor|by intros ? ?%elem_of_nil|done].
    + by intros (_ & _ & ->).
  - fold (mark_all id nodes (alter (set_vehicle id) a store)).
    assert (∀ n, n ≠ a → unmarked (alter (set_vehicle id) a store) n ↔ unmarked store n) as Hother.
    { intros n Hn. unfold unmarked. by rewrite lookup_alter_ne. }
    assert (¬ unmarked (alter (set_vehicle id) a store) a) as Hself.
    { intros (node & Hnode & Hfree). rewrite lookup_alter_eq in Hnode.
      destruct (store !! a); by simplify_eq/=. }
    split.
    + destruct (store !! a) as [node|] eqn:Ha; [|done].
      destruct (vehicle node) eqn:Hfree; [done|].
      intros (Hnodup & Hfree' & ->)%IH.
      assert (a ∉ nodes) as Hnotin by (intros Hin; by apply Hself, Hfree').
      split_and!; [by constructor| |done].
      intros n [->|Hn]%elem_of_cons; [by exists node|].
      apply Hother; [by intros ->|by apply Hfree'].
    + intros ([Hnotin Hnodup]%NoDup_cons & Hfree & ->).
      destruct (Hfree a) as (node & -> & ->); [by left|].
      apply IH. split_and!; [done| |done].
      intros n Hn. apply Hother; [by intros ->|]. apply Hfree. by right.
Qed.

(** Whatever the outcome, the loop has marked some free nodes and nothing
    else. *)
Lemma occupyNodes_marks (id : N) (nodes : list N) (store store' : gmap N Node)
  (r : result bool) :
  occupyNodes id nodes store = (store', r) →
  ∃ marked, store' = mark_all id marked store ∧ ∀ n, n ∈ marked → unmarked store n.
Proof.
  revert store. induction nodes as [|a nodes IH]; intros store; simpl.
  - intros [= <- <-]. exists []. split; [done|by intros ? ?%elem_of_nil].
  - destruct (store !! a) as [node|] eqn:Ha.
    2: { intros [= <- <-]. exists []. split; [done|by intros ? ?%elem_of_nil]. }
    destruct (vehicle node) eqn:Hfree.
    { intros [= <- <-]. exists []. split; [done|by intros ? ?%elem_of_nil]. }
    intros (marked & -> & Hmarked)%IH.
    exists (a :: filter (λ n, n ≠ a) marked). split.
    + apply map_eq. intros n. simpl.
      fold (mark_all id (filter (λ n, n ≠ a) marked) (alter (set_vehicle id) a store)).
      rewrite !lookup_mark_all, lookup_alter.
      destruct (decide (a = n)) as [->|Hne].
      * rewrite (decide_False (P := n ∈ filter _ _)).
        2: { by intros [? _]%list_elem_of_filter. }
        case_decide; [|done]. by rewrite Ha.
      * repeat case_decide; try done; exfalso.
        -- rewrite list_elem_of_filter in *. naive_solver.
        -- rewrite list_elem_of_filter in *. naive_solver.
    + intros n [->|[Hne Hn]%list_elem_of_filter]%elem_of_cons; [by exists node|].
      destruct (Hmarked n Hn) as (node' & Hnode' & ?).
      rewrite lookup_alter_ne in Hnode' by done. by exists node'.
Qed.

Lemma unmarked_mark_all (id : N) (nodes : list N) (store : gmap N Node) (n : N) :
  unmarked (mark_all id nodes store) n ↔ (n ∉ nodes) ∧ unmarked store n.
Proof.
  unfold unmarked. rewrite lookup_mark_all. case_decide as Hn; split.
  - intros (node & Hnode & Hfree). by destruct (store !! n); simplify_eq/=.
  - by intros [? _].
  - by intros ?.
  - by intros [_ ?].
Qed.

Lemma mark_all_commute (id1 id2 : N) (nodes1 nodes2 : list N) (store : gmap N Node) :
  (∀ n, n ∈ nodes1 → n ∉ nodes2) →
  mark_all id1 nodes1 (mark_all id2 nodes2 store)
  = mark_all id2 nodes2 (mark_all id1 nodes1 store).
Proof.
  intros Hdisjoint. apply map_eq. intros n. rewrite !lookup_mark_all.
  repeat case_decide; try done. by destruct (Hdisjoint n).
Qed.

(** *** Walking from the rear node to the head node *)

Lemma collectNodes_Ok (fuel : nat) (store : gmap N Node) (head_node n : N)
  (nodes : list N) :
  collectNodes fuel store head_node n = Ok nodes →
  head nodes = Some n ∧ last nodes = Some head_node ∧
  ∀ i a b, nodes !! i = Some a → nodes !! S i = Some b → front_lock store a = Some b.
Proof.
  revert n nodes. induction fuel as [|fuel IH]; intros n nodes; simpl.
  - case_decide as Hn; [|done]. intros [= <-]. subst. split_and!; [done..|].
    by intros [|i] a b.
  - case_decide as Hn.
    { intros [= <-]. subst. split_and!; [done..|]. by intros [|i] a b. }
    destruct (front_lock store n) as [m|] eqn:Hm; [|done].
    destruct (collectNodes fuel store head_node m) as [nodes'|] eqn:Hwalk; [|done].
    intros [= <-]. destruct (IH _ _ Hwalk) as (Hhead & Hlast & Hstep).
    split_and!; [done| |].
    + rewrite last_cons, Hlast. done.
    + intros [|i] a b; simpl.
      * intros [= <-] Hb. destruct nodes'; simplify_eq/=. done.
      * apply Hstep.
Qed.






Section Registration.
Context `{map_ : CarlaMap} `{cmath : CMath}.

(** [Lattice::closestNode(waypoint, tolerance)] of the base class, on the
    lattice of this object: a node, or null. *)
Variable closestNode : CarlaWaypoint → double → option N.

(** The nodes under one vehicle: the first half of the loop body. *)
Definition vehicleNodes (L : TrafficLattice) (vehicle : VehicleTuple)
  : result (list N) :=
  let '(id, transform, bounding_box) := vehicle in
  let head_waypoint := vehicleHeadWaypoint transform bounding_box in
  let rear_waypoint := vehicleRearWaypoint transform bounding_box in
  let head_node := closestNode head_waypoint (longitudinal_resolution_ L / lit 2.0)%Qc in
  let rear_node := closestNode rear_waypoint (longitudinal_resolution_ L / lit 2.0)%Qc in
  match head_node, rear_node with
  | Some head_node, Some rear_node =>
    collectNodes (S (size (nodes_ L))) (nodes_ L) head_node rear_node
  | _, _ => Throw NodesNotFound
  end.

(** The body of the loop over the vehicles. *)
Definition registerVehicle (L : TrafficLattice) (vehicle : VehicleTuple)
  : TrafficLattice * result bool :=
  match vehicleNodes L vehicle with
  | Throw e => (L, Throw e)
  | Ok nodes =>
    let id := vehicle.1.1 in
    match occupyNodes id nodes (nodes_ L) with
    | (store, Ok true) =>
      ({| nodes_ := store;
          longitudinal_resolution_ := longitudinal_resolution_ L;
          vehicle_to_nodes_table_ := <[id := nodes]> (vehicle_to_nodes_table_ L) |},
       Ok true)
    | (store, r) =>
      ({| nodes_ := store;
          longitudinal_resolution_ := longitudinal_resolution_ L;
          vehicle_to_nodes_table_ := vehicle_to_nodes_table_ L |},
       r)
    end
  end.

(** [for (const auto& vehicle : vehicles) { ... } return true;] *)
Fixpoint registerLoop (L : TrafficLattice) (vehicles : list VehicleTuple)
  : TrafficLattice * result bool :=
  match vehicles with
  | [] => (L, Ok true)
  | vehicle :: vehicles' =>
    match registerVehicle L vehicle with
    | (L', Ok true) => registerLoop L' vehicles'
    | (L', r) => (L', r)
    end
  end.

Definition registerVehicles (L : TrafficLattice) (vehicles : list VehicleTuple)
  : TrafficLattice * result bool :=
  registerLoop {| nodes_ := nodes_ L;
                  longitudinal_resolution_ := longitudinal_resolution_ L;
                  vehicle_to_nodes_table_ := ∅ |} vehicles.

(** Every node recorded for a vehicle is alive and carries its id. *)
Definition table_marked (L : TrafficLattice) : Prop :=
  ∀ id nodes n, vehicle_to_nodes_table_ L !! id = Some nodes → n ∈ nodes →
    ∃ node, nodes_ L !! n = Some node ∧ vehicle node = Some id.

(** [nodes] runs from the node closest to the rear waypoint of the vehicle
    to the node closest to its head waypoint, each node being the one in
    front of the node before it. *)
Definition rear_to_head (L : TrafficLattice) (vehicle : VehicleTuple)
  (nodes : list N) : Prop :=
  ∃ rear_node head_node,
    closestNode (vehicleRearWaypoint vehicle.1.2 vehicle.2)
      (longitudinal_resolution_ L / lit 2.0)%Qc = Some rear_node ∧
    closestNode (vehicleHeadWaypoint vehicle.1.2 vehicle.2)
      (longitudinal_resolution_ L / lit 2.0)%Qc = Some head_node ∧
    head nodes = Some rear_node ∧ last nodes = Some head_node ∧
    ∀ i a b, nodes !! i = Some a → nodes !! S i = Some b →
      front_lock (nodes_ L) a = Some b.

(** *** One vehicle *)

Lemma vehicleNodes_links (L M : TrafficLattice) (v : VehicleTuple) :
  links (nodes_ L) = links (nodes_ M) →
  longitudinal_resolution_ L = longitudinal_resolution_ M →
  vehicleNodes L v = vehicleNodes M v.
Proof.
  intros Hlinks Hres. destruct v as [[id transform] bounding_box].
  unfold vehicleNodes. rewrite Hres.
  destruct (closestNode _ _) as [head_node|]; [|done].
  destruct (closestNode _ _) as [rear_node|]; [|done].
  rewrite (size_links _ _ Hlinks). by apply collectNodes_links.
Qed.

Lemma registerVehicle_true (L L' : TrafficLattice) (v : VehicleTuple) :
  registerVehicle L v = (L', Ok true) ↔
  ∃ nodes, vehicleNodes L v = Ok nodes ∧ NoDup nodes ∧
    (∀ n, n ∈ nodes → unmarked (nodes_ L) n) ∧
    L' = {| nodes_ := mark_all v.1.1 nodes (nodes_ L);
            longitudinal_resolution_ := longitudinal_resolution_ L;
            vehicle_to_nodes_table_ := <[v.1.1 := nodes]> (vehicle_to_nodes_table_ L) |}.
Proof.
  unfold registerVehicle. split.
  - destruct (vehicleNodes L v) as [nodes|]; [|done].
    destruct (occupyNodes _ nodes _) as [store r] eqn:Hocc.
    destruct r as [[]|]; intros [= <-].
    apply occupyNodes_true in Hocc as (? & ? & ->). by exists nodes.
  - intros (nodes & -> & Hnodup & Hfree & ->).
    by rewrite (proj2 (occupyNodes_true v.1.1 nodes (nodes_ L)
                         (mark_all v.1.1 nodes (nodes_ L)))).
Qed.

(** However the body ends, the resolution is kept, the store differs by
    marks on free nodes only, and the table changes on success only. *)
Lemma registerVehicle_state (L L' : TrafficLattice) (v : VehicleTuple) (r : result bool) :
  registerVehicle L v = (L', r) →
  longitudinal_resolution_ L' = longitudinal_resolution_ L ∧
  (∃ marked, nodes_ L' = mark_all v.1.1 marked (nodes_ L) ∧
     ∀ n, n ∈ marked → unmarked (nodes_ L) n) ∧
  (r ≠ Ok true → vehicle_to_nodes_table_ L' = vehicle_to_nodes_table_ L).
Proof.
  unfold registerVehicle. destruct (vehicleNodes L v) as [nodes|e].
  - destruct (occupyNodes _ nodes _) as [store r'] eqn:Hocc.
    apply occupyNodes_marks in Hocc as (marked & -> & Hmarked).
    destruct r' as [[]|]; intros [= <- <-]; simpl; split_and!; try done; by exists marked.
  - intros [= <- <-]. split_and!; try done.
    exists []. split; [done|by intros ? ?%elem_of_nil].
Qed.

Lemma registerVehicle_links (L L' : TrafficLattice) (v : VehicleTuple) (r : result bool) :
  registerVehicle L v = (L', r) →
  links (nodes_ L') = links (nodes_ L) ∧
  longitudinal_resolution_ L' = longitudinal_resolution_ L.
Proof.
  intros (Hres & (marked & -> & _) & _)%registerVehicle_state.
  split; [apply links_mark_all|done].
Qed.

(** A node that carries a vehicle keeps it. *)
Lemma registerVehicle_marks (L L' : TrafficLattice) (v : VehicleTuple) (r : result bool)
  (n : N) (node : Node) :
  registerVehicle L v = (L', r) →
  nodes_ L !! n = Some node → vehicle node ≠ None →
  nodes_ L' !! n = Some node.
Proof.
  intros (_ & (marked & -> & Hmarked) & _)%registerVehicle_state Hn Hv.
  rewrite lookup_mark_all. case_decide as Hin; [|done].
  destruct (Hmarked n Hin) as (node' & ? & ?). by simplify_eq.
Qed.

(** *** The loop over the vehicles *)

Lemma registerLoop_cons_true (L L' : TrafficLattice) (v : VehicleTuple)
  (vs : list VehicleTuple) :
  registerLoop L (v :: vs) = (L', Ok true) ↔
  ∃ L1, registerVehicle L v = (L1, Ok true) ∧ registerLoop L1 vs = (L', Ok true).
Proof.
  simpl. destruct (registerVehicle L v) as [L1 r]. split.
  - destruct r as [[]|]; [|done..]. intros Hloop. by exists L1.
  - by intros (L1' & [= -> ->] & Hloop).
Qed.

Lemma registerLoop_app_true (L L1 : TrafficLattice) (vs1 vs2 : list VehicleTuple) :
  registerLoop L vs1 = (L1, Ok true) →
  registerLoop L (vs1 ++ vs2) = registerLoop L1 vs2.
Proof.
  revert L. induction vs1 as [|v vs1 IH]; intros L; simpl.
  - by intros [= ->].
  - destruct (registerVehicle L v) as [L' r]. destruct r as [[]|]; [|done..]. apply IH.
Qed.

(** A pass that does not return [true] stopped in the body of one vehicle,
    after the vehicles before it went through. *)
Lemma registerLoop_stops (L L' : TrafficLattice) (vs : list VehicleTuple) (r : result bool) :
  registerLoop L vs = (L', r) → r ≠ Ok true →
  ∃ vs1 v vs2 L1, vs = vs1 ++ v :: vs2 ∧
    registerLoop L vs1 = (L1, Ok true) ∧ registerVehicle L1 v = (L', r).
Proof.
  revert L. induction vs as [|v vs IH]; intros L; simpl.
  - by intros [= <- <-].
  - destruct (registerVehicle L v) as [L1 r1] eqn:Hv.
    destruct (decide (r1 = Ok true)) as [->|Hr1].
    + intros Hloop Hr. destruct (IH _ Hloop Hr) as (vs1 & v' & vs2 & L2 & -> & Hvs1 & Hv').
      exists (v :: vs1), v', vs2, L2. split_and!; [done| |done]. simpl. by rewrite Hv.
    + intros Heq Hr. assert ((L1, r1) = (L', r)) as [= -> ->].
      { by destruct r1 as [[]|]. }
      exists [], v, vs, L. by split_and!.
Qed.

(** Invariants of a pass that goes through. *)
Lemma registerLoop_true_ind (P : TrafficLattice → Prop) (vs : list VehicleTuple)
  (L L' : TrafficLattice) :
  (∀ L1 L2 v, v ∈ vs → P L1 → registerVehicle L1 v = (L2, Ok true) → P L2) →
  P L → registerLoop L vs = (L', Ok true) → P L'.
Proof.
  revert L. induction vs as [|v vs IH]; intros L Hstep HL.
  - by intros [= <-].
  - intros (L1 & Hv & Hloop)%registerLoop_cons_true.
    apply (IH L1); [|by eapply Hstep; [left|..]|done].
    intros L2 L3 v' Hv'. apply Hstep. by right.
Qed.

Lemma registerLoop_links (L L' : TrafficLattice) (vs : list VehicleTuple) (r : result bool) :
  registerLoop L vs = (L', r) →
  links (nodes_ L') = links (nodes_ L) ∧
  longitudinal_resolution_ L' = longitudinal_resolution_ L.
Proof.
  revert L. induction vs as [|v vs IH]; intros L; simpl.
  - by intros [= <- <-].
  - destruct (registerVehicle L v) as [L1 r1] eqn:Hv.
    apply registerVehicle_links in Hv as [Hlinks Hres].
    destruct r1 as [[]|]; try (by intros [= <- <-]).
    intros [? ?]%IH. split; congruence.
Qed.

(** *** What a pass that goes through has recorded *)

Lemma registerVehicle_table_marked (L L' : TrafficLattice) (v : VehicleTuple) :
  table_marked L → registerVehicle L v = (L', Ok true) → table_marked L'.
Proof.
  intros HL (nodes & _ & _ & Hfree & ->)%registerVehicle_true id nodes' n. simpl.
  rewrite lookup_mark_all, lookup_insert. case_decide as Hid.
  - intros [= <-] Hn. subst id. rewrite decide_True by done.
    destruct (Hfree n Hn) as (node & -> & _). by exists (set_vehicle v.1.1 node).
  - intros Hnodes Hn. destruct (HL id nodes' n Hnodes Hn) as (node & Hnode & Hv).
    case_decide as Hin; [|by exists node].
    destruct (Hfree n Hin) as (node' & ? & ?). simplify_eq.
Qed.

Lemma registerLoop_table_marked (L L' : TrafficLattice) (vs : list VehicleTuple) :
  table_marked L → registerLoop L vs = (L', Ok true) → table_marked L'.
Proof.
  apply registerLoop_true_ind. intros L1 L2 v _. apply registerVehicle_table_marked.
Qed.

Lemma registerLoop_table_is_Some (L L' : TrafficLattice) (vs : list VehicleTuple) (id : N) :
  is_Some (vehicle_to_nodes_table_ L !! id) →
  registerLoop L vs = (L', Ok true) →
  is_Some (vehicle_to_nodes_table_ L' !! id).
Proof.
  apply (registerLoop_true_ind (λ L, is_Some (vehicle_to_nodes_table_ L !! id))).
  intros L1 L2 v _ Hid (nodes & _ & _ & _ & ->)%registerVehicle_true. simpl.
  rewrite lookup_insert_is_Some. destruct (decide (v.1.1 = id)); auto.
Qed.

Lemma registerLoop_table_all (L L' : TrafficLattice) (vs : list VehicleTuple) :
  registerLoop L vs = (L', Ok true) →
  ∀ v, v ∈ vs → is_Some (vehicle_to_nodes_table_ L' !! v.1.1).
Proof.
  revert L. induction vs as [|v vs IH]; intros L; [by intros _ ? ?%elem_of_nil|].
  intros (L1 & Hv & Hloop)%registerLoop_cons_true v' [->|Hv']%elem_of_cons.
  - apply (registerLoop_table_is_Some L1 L' vs); [|done].
    apply registerVehicle_true in Hv as (nodes & _ & _ & _ & ->). simpl.
    by rewrite lookup_insert_eq.
  - by apply (IH L1).
Qed.

Lemma registerLoop_dom (L L' : TrafficLattice) (vs : list VehicleTuple) :
  registerLoop L vs = (L', Ok true) →
  dom (vehicle_to_nodes_table_ L')
  = dom (vehicle_to_nodes_table_ L) ∪ list_to_set (vs.*1).*1.
Proof.
  revert L. induction vs as [|v vs IH]; intros L.
  - intros [= <-]. set_solver.
  - intros (L1 & (nodes & _ & _ & _ & ->)%registerVehicle_true & Hloop)%registerLoop_cons_true.
    rewrite (IH _ Hloop). simpl. rewrite dom_insert_L. set_solver.
Qed.

(** C2. After a pass of [registerVehicles] that returns true, every
    vehicle of the input has an entry in the table, the node sequences
    recorded for two distinct vehicle ids have no node in common, and every
    recorded node carries the id it is recorded for, and no other. *)
Theorem registerVehicles_no_double_occupancy (L L' : TrafficLattice)
  (vehicles : list VehicleTuple) :
  registerVehicles L vehicles = (L', Ok true) →
  (∀ v, v ∈ vehicles → is_Some (vehicle_to_nodes_table_ L' !! v.1.1)) ∧
  (∀ id1 id2 nodes1 nodes2,
     id1 ≠ id2 →
     vehicle_to_nodes_table_ L' !! id1 = Some nodes1 →
     vehicle_to_nodes_table_ L' !! id2 = Some nodes2 →
     ∀ n, n ∈ nodes1 → n ∉ nodes2) ∧
  (∀ id nodes n,
     vehicle_to_nodes_table_ L' !! id = Some nodes → n ∈ nodes →
     ∃ node, nodes_ L' !! n = Some node ∧ vehicle node = Some id).
Proof.
  unfold registerVehicles. intros Hloop.
  assert (table_marked L') as Hmarked.
  { eapply registerLoop_table_marked; [|done]. intros id nodes n. simpl.
    by rewrite lookup_empty. }
  split_and!; [by eapply registerLoop_table_all| |done].
  intros id1 id2 nodes1 nodes2 Hne H1 H2 n Hn1 Hn2.
  destruct (Hmarked _ _ _ H1 Hn1) as (node & Hnode & Hv).
  destruct (Hmarked _ _ _ H2 Hn2) as (node' & Hnode' & Hv').
  congruence.
Qed.

Lemma vehicleNodes_Ok (L : TrafficLattice) (v : VehicleTuple) (nodes : list N) :
  vehicleNodes L v = Ok nodes → rear_to_head L v nodes.
Proof.
  destruct v as [[id transform] bounding_box]. unfold vehicleNodes, rear_to_head.
  destruct (closestNode _ _) as [head_node|] eqn:Hhead; [|done].
  destruct (closestNode (vehicleRearWaypoint _ _) _) as [rear_node|] eqn:Hrear; [|done].
  intros (? & ? & ?)%collectNodes_Ok. by exists rear_node, head_node.
Qed.



(** *** The order of the vehicles *)

(** The body does not look at the table. *)
Lemma registerVehicle_true_nodes (L M L' : TrafficLattice) (v : VehicleTuple) :
  nodes_ L = nodes_ M →
  longitudinal_resolution_ L = longitudinal_resolution_ M →
  registerVehicle L v = (L', Ok true) →
  ∃ M', registerVehicle M v = (M', Ok true) ∧
    nodes_ L' = nodes_ M' ∧ longitudinal_resolution_ L' = longitudinal_resolution_ M'.
Proof.
  intros Hnodes Hres (nodes & Hv & Hnodup & Hfree & ->)%registerVehicle_true.
  exists {| nodes_ := mark_all v.1.1 nodes (nodes_ M);
            longitudinal_resolution_ := longitudinal_resolution_ M;
            vehicle_to_nodes_table_ := <[v.1.1 := nodes]> (vehicle_to_nodes_table_ M) |}.
  simpl. split_and!; [|by rewrite Hnodes|done].
  apply registerVehicle_true. exists nodes.
  rewrite <- Hnodes. split_and!; [|done..].
  by rewrite <- (vehicleNodes_links L M) by (by rewrite ?Hnodes).
Qed.

Lemma registerLoop_true_nodes (L M L' : TrafficLattice) (vs : list VehicleTuple) :
  nodes_ L = nodes_ M →
  longitudinal_resolution_ L = longitudinal_resolution_ M →
  registerLoop L vs = (L', Ok true) →
  ∃ M', registerLoop M vs = (M', Ok true) ∧
    nodes_ L' = nodes_ M' ∧ longitudinal_resolution_ L' = longitudinal_resolution_ M'.
Proof.
  revert L M. induction vs as [|v vs IH]; intros L M Hnodes Hres.
  - intros [= <-]. by exists M.
  - intros (L1 & Hv & Hloop)%registerLoop_cons_true.
    destruct (registerVehicle_true_nodes L M L1 v) as (M1 & ? & ? & ?); [done..|].
    destruct (IH L1 M1) as (M' & ? & ? & ?); [done..|].
    exists M'. split; [|done]. apply registerLoop_cons_true. by exists M1.
Qed.

Lemma registerVehicle_swap (L L1 L2 : TrafficLattice) (x y : VehicleTuple) :
  registerVehicle L x = (L1, Ok true) →
  registerVehicle L1 y = (L2, Ok true) →
  ∃ L1' L2', registerVehicle L y = (L1', Ok true) ∧
    registerVehicle L1' x = (L2', Ok true) ∧
    nodes_ L2' = nodes_ L2 ∧
    longitudinal_resolution_ L2' = longitudinal_resolution_ L2 ∧
    (x.1.1 ≠ y.1.1 → L2' = L2).
Proof.
  intros (nodes_x & Hx & Hnodup_x & Hfree_x & ->)%registerVehicle_true
         (nodes_y & Hy & Hnodup_y & Hfree_y & ->)%registerVehicle_true.
  simpl in *.
  rewrite (vehicleNodes_links _ L) in Hy by (simpl; by rewrite ?links_mark_all).
  assert (∀ n, n ∈ nodes_y → (n ∉ nodes_x) ∧ unmarked (nodes_ L) n) as Hfree_y'.
  { intros n Hn. by apply (unmarked_mark_all x.1.1), Hfree_y. }
  assert (mark_all x.1.1 nodes_x (mark_all y.1.1 nodes_y (nodes_ L))
          = mark_all y.1.1 nodes_y (mark_all x.1.1 nodes_x (nodes_ L))) as Hcommute.
  { apply mark_all_commute. intros n Hn Hn'. by destruct (Hfree_y' n Hn'). }
  eexists _, _. split_and!.
  - apply registerVehicle_true. exists nodes_y. split_and!; [done..| |done].
    intros n Hn. by apply Hfree_y'.
  - apply registerVehicle_true. exists nodes_x. simpl. split_and!; [|done| |done].
    + by rewrite (vehicleNodes_links _ L) by (simpl; by rewrite ?links_mark_all).
    + intros n Hn. apply unmarked_mark_all. split; [|by apply Hfree_x].
      intros Hn'. by destruct (Hfree_y' n Hn').
  - done.
  - done.
  - intros Hid. simpl. f_equal; [done|]. by apply insert_insert_ne.
Qed.

(** Whether a pass goes through, and the nodes it leaves, do not depend
    on the order of the vehicles. *)
Lemma registerLoop_permutation_nodes (vs vs' : list VehicleTuple) :
  vs ≡ₚ vs' →
  ∀ L M L', nodes_ L = nodes_ M →
    longitudinal_resolution_ L = longitudinal_resolution_ M →
    registerLoop L vs = (L', Ok true) →
    ∃ M', registerLoop M vs' = (M', Ok true) ∧
      nodes_ L' = nodes_ M' ∧ longitudinal_resolution_ L' = longitudinal_resolution_ M'.
Proof.
  induction 1 as [|x vs vs' Hperm IH|x y vs|vs vs' vs'' Hperm IH Hperm' IH'];
    intros L M L' Hnodes Hres.
  - intros [= <-]. by exists M.
  - intros (L1 & Hx & Hloop)%registerLoop_cons_true.
    destruct (registerVehicle_true_nodes L M L1 x) as (M1 & Hx' & ? & ?); [done..|].
    destruct (IH L1 M1 L') as (M' & ? & ? & ?); [done..|].
    exists M'. split; [|done]. apply registerLoop_cons_true. by exists M1.
  - intros (L1 & Hy & (L2 & Hx & Hloop)%registerLoop_cons_true)%registerLoop_cons_true.
    destruct (registerVehicle_swap L L1 L2 y x) as (L1' & L2' & Hx' & Hy' & ? & ? & _);
      [done..|].
    destruct (registerVehicle_true_nodes L M L1' x) as (M1 & Hx'' & ? & ?); [done..|].
    destruct (registerVehicle_true_nodes L1' M1 L2' y) as (M2 & Hy'' & ? & ?); [done..|].
    destruct (registerLoop_true_nodes L2 M2 L' vs) as (M' & ? & ? & ?);
      [congruence..|done|].
    exists M'. split; [|done].
    apply registerLoop_cons_true. exists M1. split; [done|].
    apply registerLoop_cons_true. by exists M2.
  - intros Hloop. destruct (IH L M L') as (M1 & ? & ? & ?); [done..|].
    destruct (IH' M M M1) as (M2 & ? & ? & ?); [done..|].
    exists M2. split_and!; [done|congruence..].
Qed.

Lemma registerLoop_permutation (vs vs' : list VehicleTuple) :
  vs ≡ₚ vs' → NoDup (vs.*1).*1 →
  ∀ L L', registerLoop L vs = (L', Ok true) → registerLoop L vs' = (L', Ok true).
Proof.
  induction 1 as [|x vs vs' Hperm IH|x y vs|vs vs' vs'' Hperm IH Hperm' IH'].
  - done.
  - rewrite !fmap_cons. intros [_ Hnodup]%NoDup_cons L L'.
    rewrite !registerLoop_cons_true. intros (L1 & Hx & Hloop).
    exists L1. split; [done|]. by apply IH.
  - rewrite !fmap_cons. intros [Hxy _]%NoDup_cons L L'.
    intros (L1 & Hy & (L2 & Hx & Hloop)%registerLoop_cons_true)%registerLoop_cons_true.
    apply registerLoop_cons_true.
    destruct (registerVehicle_swap L L1 L2 y x) as (L1' & L2' & Hx' & Hy' & _ & _ & Heq);
      [done..|].
    rewrite Heq in Hy' by set_solver.
    exists L1'. split; [done|]. apply registerLoop_cons_true. by exists L2.
  - intros Hnodup L L' Hloop. apply IH'; [by rewrite <- Hperm|]. by apply IH.
Qed.

(** C8. Whether a pass of [registerVehicles] returns true does not depend
    on the order of the vehicles, and neither do the nodes it leaves
    marked; for vehicles with pairwise distinct ids the table it records is
    the same for every order as well.  How a pass that does not return
    true ends is not covered: it may return false in one order and throw
    in another. *)
Theorem registerVehicles_permutation (L : TrafficLattice)
  (vehicles vehicles' : list VehicleTuple) :
  vehicles ≡ₚ vehicles' →
  ((∃ L', registerVehicles L vehicles = (L', Ok true)) ↔
   (∃ L'', registerVehicles L vehicles' = (L'', Ok true))) ∧
  (∀ L' L'', registerVehicles L vehicles = (L', Ok true) →
     registerVehicles L vehicles' = (L'', Ok true) →
     nodes_ L'' = nodes_ L') ∧
  (NoDup (vehicles.*1).*1 →
   ∀ L', registerVehicles L vehicles = (L', Ok true) ↔
         registerVehicles L vehicles' = (L', Ok true)).
Proof.
  intros Hperm. unfold registerVehicles. split_and!.
  - split; intros [L' Hloop].
    + destruct (registerLoop_permutation_nodes _ _ Hperm _ _ _ eq_refl eq_refl Hloop)
        as (L'' & ? & _). by exists L''.
    + symmetry in Hperm.
      destruct (registerLoop_permutation_nodes _ _ Hperm _ _ _ eq_refl eq_refl Hloop)
        as (L'' & ? & _). by exists L''.
  - intros L' L'' Hloop Hloop'.
    destruct (registerLoop_permutation_nodes _ _ Hperm _ _ _ eq_refl eq_refl Hloop)
      as (M & HM & ? & _).
    rewrite Hloop' in HM. by injection HM as ->.
  - intros Hnodup L'. split.
    + by apply registerLoop_permutation.
    + apply registerLoop_permutation; [done|by rewrite <- Hperm].
Qed.

End Registration.


(** *** A straight road along the x axis *)

(** Road 1, lane -1, one waypoint per unit of x; the waypoint id is the
    integer part of x. *)
Definition straight_map : CarlaMap :=
  {| GetWaypoint := λ p,
       {| GetId := Z.to_N (Qfloor (loc_x p)); GetRoadId := 1; GetLaneId := -1;
          GetDistance := loc_x p |};
     GetLength := λ _, lit 100 |}.

(** All vehicles head along the x axis: yaw 0 only. *)
Definition yaw0_math : CMath :=
  {| std_sin := λ _, 0%Qc; std_cos := λ _, 1%Qc; M_PI := lit 3.14159265358979323846 |}.

Definition straight_closestNode (w : CarlaWaypoint) (tolerance : double) : option N :=
  Some (GetId w).

(** A lattice of [n] nodes: a waypoint further out has no node close to
    it. *)
Definition short_closestNode (n : N) (w : CarlaWaypoint) (tolerance : double) : option N :=
  if decide (GetId w < n)%N then Some (GetId w) else None.

(** [n] nodes [0 → 1 → ... → n-1], none occupied. *)
Definition straight_nodes (n : nat) : gmap N Node :=
  list_to_map ((λ i, (N.of_nat i, {| front := Some (N.of_nat (S i)); vehicle := None |}))
                 <$> seq 0 n).

Definition straight_lattice (n : nat) : TrafficLattice :=
  {| nodes_ := straight_nodes n; longitudinal_resolution_ := lit 1.0;
     vehicle_to_nodes_table_ := ∅ |}.

(** A vehicle at [x], heading along the axis, with half-length [e]. *)
Definition car (id : N) (x e : Q) : VehicleTuple :=
  (id,
   {| location := {| loc_x := lit x; loc_y := 0%Qc; loc_z := 0%Qc |};
      rotation := {| pitch := 0%Qc; yaw := 0%Qc; roll := 0%Qc |} |},
   {| box_location := {| loc_x := 0%Qc; loc_y := 0%Qc; loc_z := 0%Qc |};
      extent := {| vec_x := lit e; vec_y := 1%Qc; vec_z := 1%Qc |} |}).

(** ** Start and range of the lattice: [latticeStartAndRange] *)

(** A default-constructed [CarlaTransform] or [CarlaBoundingBox], as
    [operator[]] of a map makes one for a missing key. *)
#[global] Instance CarlaTransform_inhabited : Inhabited CarlaTransform :=
  populate {| location := {| loc_x := 0%Qc; loc_y := 0%Qc; loc_z := 0%Qc |};
              rotation := {| pitch := 0%Qc; yaw := 0%Qc; roll := 0%Qc |} |}.
#[global] Instance CarlaBoundingBox_inhabited : Inhabited CarlaBoundingBox :=
  populate {| box_location := {| loc_x := 0%Qc; loc_y := 0%Qc; loc_z := 0%Qc |};
              extent := {| vec_x := 0%Qc; vec_y := 0%Qc; vec_z := 0%Qc |} |}.

Section Estimator.
Context `{map_ : CarlaMap} `{cmath : CMath} `{router_ : Router}.
Variable uset_begin : gset N → option N.

(** [std::sort(first, last, comp)] with [comp(v0, v1) = key(v0) < key(v1)];
    an exception thrown by [key] leaves the sort.  Which of several equal
    elements comes first is up to the library. *)
Variable std_sort : (N → result double) → list N → result (list N).

(** The first loop: the last tuple with an id sets its transform and box. *)
Definition arrangeTransforms (vehicles : list VehicleTuple) : gmap N CarlaTransform :=
  foldl (λ table vehicle, <[vehicle.1.1 := vehicle.1.2]> table) ∅ vehicles.

Definition arrangeBoundingBoxes (vehicles : list VehicleTuple) : gmap N CarlaBoundingBox :=
  foldl (λ table vehicle, <[vehicle.1.1 := vehicle.2]> table) ∅ vehicles.

(** The second loop: the ids of the vehicles whose centre is on each road.
    The order in which an unordered map hands out its entries is not
    specified; it only shows in the vectors before they are sorted. *)
Definition arrangeByRoads (vehicle_transforms : gmap N CarlaTransform) : gmap N (list N) :=
  foldl (λ table vehicle,
           let road := GetRoadId (vehicleWaypoint vehicle.2) in
           <[road := table !!! road ++ [vehicle.1]]> table)
        ∅ (map_to_list vehicle_transforms).

(** The key of the comparison: the distance of the centre of the vehicle. *)
Definition vehicleDistance (vehicle_transforms : gmap N CarlaTransform) (v : N)
  : result double :=
  waypointToRoadStartDistance (vehicleWaypoint (vehicle_transforms !!! v)).

(** The third loop: sort the vehicles of every road. *)
Definition sortByDistance (vehicle_transforms : gmap N CarlaTransform)
  (road_to_vehicles_table : gmap N (list N)) : result (gmap N (list N)) :=
  foldr (λ road acc,
           table ← acc;
           sorted ← std_sort (vehicleDistance vehicle_transforms) road.2;
           Ok (<[road.1 := sorted]> table))
        (Ok ∅) (map_to_list road_to_vehicles_table).

(** [for (id : sorted_roads) range += GetRoad(id).GetLength();] from 0. *)
Definition roadsLength (sorted_roads : list N) : double :=
  foldl (λ range id, (range + GetLength id)%Qc) 0%Qc sorted_roads.

(** [front()] or [back()] of a vector or a deque; undefined if empty. *)
Definition defined {A} (o : option A) : result A :=
  match o with
  | Some a => Ok a
  | None => Throw UndefinedBehaviour
  end.

Definition latticeStartAndRange (vehicles : list VehicleTuple)
  : result (CarlaWaypoint * double) :=
  let vehicle_transforms := arrangeTransforms vehicles in
  let vehicle_bounding_boxes := arrangeBoundingBoxes vehicles in
  road_to_vehicles_table ←
    sortByDistance vehicle_transforms (arrangeByRoads vehicle_transforms);
  let roads := dom road_to_vehicles_table in
  sorted_roads ← sortRoads uset_begin roads;
  front_road ← defined (head sorted_roads);
  back_road ← defined (last sorted_roads);
  first_vehicle ← defined (head (road_to_vehicles_table !!! front_road));
  last_vehicle ← defined (last (road_to_vehicles_table !!! back_road));
  let first_waypoint :=
    vehicleRearWaypoint (vehicle_transforms !!! first_vehicle)
                        (vehicle_bounding_boxes !!! first_vehicle) in
  let last_waypoint :=
    vehicleHeadWaypoint (vehicle_transforms !!! last_vehicle)
                        (vehicle_bounding_boxes !!! last_vehicle) in
  let start := first_waypoint in
  let range := roadsLength sorted_roads in
  range ←
    (if decide (GetRoadId first_waypoint = front_road)
     then d ← waypointToRoadStartDistance first_waypoint; Ok (range - d)%Qc
     else Ok (range + lit 5.0)%Qc);
  range ←
    (if decide (GetRoadId last_waypoint = back_road)
     then d ← waypointToRoadStartDistance last_waypoint;
          Ok (range - (GetLength back_road - d))%Qc
     else Ok (range + lit 5.0)%Qc);
  Ok (start, range).

(** What [std::sort] promises when it returns: the same elements, none
    of them before an element with a smaller key. *)
Definition std_sort_spec : Prop :=
  ∀ key l l', std_sort key l = Ok l' →
    l' ≡ₚ l ∧
    ∀ i j a b da db, i < j → l' !! i = Some a → l' !! j = Some b →
      key a = Ok da → key b = Ok db → (da ≤ db)%Qc.

(** [std::sort] returns when the comparison does not throw. *)
Definition std_sort_total : Prop :=
  ∀ key l, (∀ v, v ∈ l → ∃ d, key v = Ok d) → ∃ l', std_sort key l = Ok l'.

(** The map resolves no point to lane 0. *)
Definition lanes_nonzero : Prop :=
  ∀ p, GetLaneId (GetWaypoint p) ≠ 0%Z.

(** The centre of vehicle [v] is on [road]. *)
Definition on_road (vehicle_transforms : gmap N CarlaTransform) (road v : N) : Prop :=
  ∃ transform, vehicle_transforms !! v = Some transform ∧
    GetRoadId (vehicleWaypoint transform) = road.

(** *** The estimate in the words of the specification *)

(** The tuple that counts for its vehicle id: the last one of the list
    with that id. *)
Definition kept (vehicles : list VehicleTuple) (v : VehicleTuple) : Prop :=
  last (filter (λ v', v'.1.1 = v.1.1) vehicles) = Some v.

(** The sum of the lengths of the roads of a chain, added up road by road
    from 0 in the order of the chain. *)
Inductive total_length : list N → double → Prop :=
| total_length_nil : total_length [] 0%Qc
| total_length_snoc l r total :
    total_length l total → total_length (l ++ [r]) (total + GetLength r)%Qc.

(** [start] is the rear waypoint of the first vehicle, the one with the
    least distance on the first road of the sorted chain of the roads the
    vehicles are on; [range] is the sum of the lengths of the chain, less
    the distance of the rear waypoint if it is on the first road and plus
    5.0 if not, and then less what is left of the last road beyond the
    head waypoint of the last vehicle, the one with the greatest distance
    on the last road, if that waypoint is on the last road and plus 5.0 if
    not. *)
Definition start_and_range_spec (vehicles : list VehicleTuple)
  (start : CarlaWaypoint) (range : double) : Prop :=
  ∃ (roads : gset N) (sorted_roads : list N) (front_road back_road : N)
    (first_vehicle last_vehicle : VehicleTuple) (total : double),
    (∀ road, road ∈ roads ↔
       ∃ v, kept vehicles v ∧ GetRoadId (vehicleWaypoint v.1.2) = road) ∧
    sortRoads uset_begin roads = Ok sorted_roads ∧
    head sorted_roads = Some front_road ∧
    last sorted_roads = Some back_road ∧
    total_length sorted_roads total ∧
    (kept vehicles first_vehicle ∧
     GetRoadId (vehicleWaypoint first_vehicle.1.2) = front_road ∧
     ∀ v d0 d, kept vehicles v → GetRoadId (vehicleWaypoint v.1.2) = front_road →
       waypointToRoadStartDistance (vehicleWaypoint first_vehicle.1.2) = Ok d0 →
       waypointToRoadStartDistance (vehicleWaypoint v.1.2) = Ok d → (d0 ≤ d)%Qc) ∧
    (kept vehicles last_vehicle ∧
     GetRoadId (vehicleWaypoint last_vehicle.1.2) = back_road ∧
     ∀ v d1 d, kept vehicles v → GetRoadId (vehicleWaypoint v.1.2) = back_road →
       waypointToRoadStartDistance (vehicleWaypoint last_vehicle.1.2) = Ok d1 →
       waypointToRoadStartDistance (vehicleWaypoint v.1.2) = Ok d → (d ≤ d1)%Qc) ∧
    start = vehicleRearWaypoint first_vehicle.1.2 first_vehicle.2 ∧
    let last_waypoint := vehicleHeadWaypoint last_vehicle.1.2 last_vehicle.2 in
    ∃ range1,
      (if decide (GetRoadId start = front_road)
       then ∃ d, waypointToRoadStartDistance start = Ok d ∧ range1 = (total - d)%Qc
       else range1 = (total + lit 5.0)%Qc) ∧
      (if decide (GetRoadId last_waypoint = back_road)
       then ∃ d, waypointToRoadStartDistance last_waypoint = Ok d ∧
                 range = (range1 - (GetLength back_road - d))%Qc
       else range = (range1 + lit 5.0)%Qc).

(** *** The vehicles of a road *)

Lemma arrangeByRoads_foldl (l : list (N * CarlaTransform)) (table : gmap N (list N))
  (road v : N) :
  v ∈ foldl (λ table vehicle,
               let road := GetRoadId (vehicleWaypoint vehicle.2) in
               <[road := table !!! road ++ [vehicle.1]]> table) table l !!! road ↔
  v ∈ table !!! road ∨
  ∃ transform, (v, transform) ∈ l ∧ GetRoadId (vehicleWaypoint transform) = road.
Proof.
  revert table. induction l as [|[v' transform'] l IH]; intros table; simpl.
  - split; [by left|]. by intros [?|(? & ?%elem_of_nil & _)].
  - rewrite IH. clear IH.
    destruct (decide (GetRoadId (vehicleWaypoint transform') = road)) as [<-|Hne].
    + rewrite lookup_total_insert_eq, elem_of_app, list_elem_of_singleton. split.
      * intros [[?| ->]|(transform & ? & ?)]; [by left| |].
        -- right. exists transform'. split; [by left|done].
        -- right. exists transform. split; [by right|done].
      * intros [?|(transform & [[= -> ->]|?]%elem_of_cons & ?)]; [by left;left|by left;right|].
        right. by exists transform.
    + rewrite lookup_total_insert_ne by done. split.
      * intros [?|(transform & ? & ?)]; [by left|]. right. exists transform.
        split; [by right|done].
      * intros [?|(transform & [[= -> ->]|?]%elem_of_cons & ?)]; [by left|done|].
        right. by exists transform.
Qed.

Lemma arrangeByRoads_elem (vehicle_transforms : gmap N CarlaTransform) (road v : N) :
  v ∈ arrangeByRoads vehicle_transforms !!! road ↔ on_road vehicle_transforms road v.
Proof.
  unfold arrangeByRoads, on_road. rewrite arrangeByRoads_foldl.
  rewrite lookup_total_empty. setoid_rewrite elem_of_map_to_list.
  split; [|by right]. by intros [?%elem_of_nil|?].
Qed.

Lemma sortByDistance_foldr (key : N → result double) (l : list (N * list N))
  (table' : gmap N (list N)) :
  NoDup (l.*1) →
  foldr (λ road acc,
           table ← acc;
           sorted ← std_sort key road.2;
           Ok (<[road.1 := sorted]> table)) (Ok ∅) l = Ok table' →
  ∀ road sorted, table' !! road = Some sorted →
    ∃ vs, (road, vs) ∈ l ∧ std_sort key vs = Ok sorted.
Proof.
  revert table'. induction l as [|[r vs] l IH]; intros table'; simpl.
  - intros _ [= <-] road sorted. by rewrite lookup_empty.
  - intros [Hr Hnodup]%NoDup_cons (table & Hacc & (sorted & Hsort & [= <-])%bind_Ok)%bind_Ok.
    intros road sorted'. rewrite lookup_insert. case_decide as Hroad.
    + intros [= <-]. subst r. exists vs. split; [by left|done].
    + intros (vs' & ? & ?)%(IH table Hnodup Hacc). exists vs'. split; [by right|done].
Qed.

Lemma sortByDistance_Ok (vehicle_transforms : gmap N CarlaTransform)
  (table table' : gmap N (list N)) (road : N) (sorted : list N) :
  sortByDistance vehicle_transforms table = Ok table' →
  table' !! road = Some sorted →
  std_sort (vehicleDistance vehicle_transforms) (table !!! road) = Ok sorted.
Proof.
  intros Hsort Hroad.
  destruct (sortByDistance_foldr _ _ _ (NoDup_fst_map_to_list table) Hsort _ _ Hroad)
    as (vs & Hvs%elem_of_map_to_list & ?).
  by rewrite (lookup_total_correct _ _ _ Hvs).
Qed.

Lemma arrangeByRoads_nonempty (vehicle_transforms : gmap N CarlaTransform)
  (road : N) (vs : list N) :
  arrangeByRoads vehicle_transforms !! road = Some vs → vs ≠ [].
Proof.
  unfold arrangeByRoads.
  generalize (map_to_list vehicle_transforms). intros l. revert road vs.
  assert (∀ table : gmap N (list N),
            (∀ road vs, table !! road = Some vs → vs ≠ []) →
            ∀ road vs,
              foldl (λ table vehicle,
                       let road := GetRoadId (vehicleWaypoint vehicle.2) in
                       <[road := table !!! road ++ [vehicle.1]]> table) table l !! road
              = Some vs → vs ≠ []) as Hgen.
  { induction l as [|v l IH]; intros table Htable; simpl; [done|].
    apply IH. intros road vs. rewrite lookup_insert. case_decide.
    - intros [= <-]. by intros [_ ?]%app_eq_nil.
    - apply Htable. }
  apply Hgen. intros road vs. by rewrite lookup_empty.
Qed.

Lemma sortByDistance_total (vehicle_transforms : gmap N CarlaTransform)
  (table : gmap N (list N)) :
  std_sort_total →
  (∀ v, ∃ d, vehicleDistance vehicle_transforms v = Ok d) →
  ∃ table', sortByDistance vehicle_transforms table = Ok table' ∧ dom table' = dom table.
Proof.
  intros Htotal Hkey. unfold sortByDistance.
  assert (dom table = list_to_set (map_to_list table).*1) as ->.
  { apply set_eq. intros road.
    rewrite elem_of_dom, elem_of_list_to_set, list_elem_of_fmap. split.
    - intros [vs Hvs]. exists (road, vs). by rewrite elem_of_map_to_list.
    - intros ([road' vs] & -> & ?%elem_of_map_to_list). by exists vs. }
  induction (map_to_list table) as [|[road vs] l (table' & IH & Hdom)]; simpl.
  - exists ∅. by rewrite dom_empty_L.
  - rewrite IH. simpl.
    destruct (Htotal (vehicleDistance vehicle_transforms) vs) as [sorted ->]; [done|].
    simpl. eexists. split; [done|]. by rewrite dom_insert_L, Hdom.
Qed.

Lemma waypointToRoadStartDistance_Ok (waypoint : CarlaWaypoint) :
  GetLaneId waypoint ≠ 0%Z → ∃ d, waypointToRoadStartDistance waypoint = Ok d.
Proof.
  intros Hlane. unfold waypointToRoadStartDistance.
  rewrite bool_decide_eq_false_2 by done. case_bool_decide; eauto.
Qed.

Lemma defined_Ok {A} (o : option A) (a : A) : defined o = Ok a ↔ o = Some a.
Proof. destruct o; simpl; naive_solver. Qed.

(** The first of a sorted vector has the least key, the last the
    greatest, among the vehicles of the road. *)
Lemma sorted_road_ends (vehicle_transforms : gmap N CarlaTransform)
  (table' : gmap N (list N)) (road : N) :
  std_sort_spec →
  sortByDistance vehicle_transforms (arrangeByRoads vehicle_transforms) = Ok table' →
  (∀ first_vehicle, head (table' !!! road) = Some first_vehicle →
     on_road vehicle_transforms road first_vehicle ∧
     ∀ v d0 d, on_road vehicle_transforms road v →
       vehicleDistance vehicle_transforms first_vehicle = Ok d0 →
       vehicleDistance vehicle_transforms v = Ok d → (d0 ≤ d)%Qc) ∧
  (∀ last_vehicle, last (table' !!! road) = Some last_vehicle →
     on_road vehicle_transforms road last_vehicle ∧
     ∀ v d1 d, on_road vehicle_transforms road v →
       vehicleDistance vehicle_transforms last_vehicle = Ok d1 →
       vehicleDistance vehicle_transforms v = Ok d → (d ≤ d1)%Qc).
Proof.
  intros Hspec Hsort.
  destruct (table' !! road) as [sorted|] eqn:Hroad.
  2: { rewrite lookup_total_alt, Hroad. simpl. by split. }
  rewrite (lookup_total_correct _ _ _ Hroad).
  destruct (Hspec _ _ _ (sortByDistance_Ok _ _ _ _ _ Hsort Hroad)) as [Hperm Hsorted].
  assert (∀ v, v ∈ sorted ↔ on_road vehicle_transforms road v) as Hmem.
  { intros v. by rewrite Hperm, arrangeByRoads_elem. }
  split.
  - intros first_vehicle Hfirst. rewrite head_lookup in Hfirst.
    split; [by eapply Hmem, list_elem_of_lookup_2|].
    intros v d0 d [j Hj]%Hmem%list_elem_of_lookup Hd0 Hd.
    destruct j as [|j]; [|by apply (Hsorted 0 (S j) first_vehicle v); [lia|..]].
    rewrite Hfirst in Hj. injection Hj as <-. rewrite Hd0 in Hd. by injection Hd as <-.
  - intros last_vehicle Hlast. rewrite last_lookup in Hlast.
    split; [by eapply Hmem, list_elem_of_lookup_2|].
    intros v d1 d [j Hj]%Hmem%list_elem_of_lookup Hd1 Hd.
    pose proof (lookup_lt_Some _ _ _ Hj) as Hlen.
    destruct (decide (j = pred (length sorted))) as [->|Hne].
    + rewrite Hlast in Hj. injection Hj as <-. rewrite Hd1 in Hd. by injection Hd as <-.
    + by apply (Hsorted j (pred (length sorted)) v last_vehicle); [lia|..].
Qed.

(** [start] and [range] as read off the tables of the estimator: the
    start is the rear waypoint of the first vehicle, a vehicle on the first
    road of the sorted chain with the least distance to the start of that
    road; the range is the sum of the lengths of the sorted roads, less the
    distance of the rear waypoint if it is on the first road and plus 5.0
    if not, and less what is left of the last road beyond the head waypoint
    of the last vehicle if that is on the last road and plus 5.0 if not. *)
Definition start_and_range_of (vehicles : list VehicleTuple)
  (start : CarlaWaypoint) (range : double) : Prop :=
  let vehicle_transforms := arrangeTransforms vehicles in
  let vehicle_bounding_boxes := arrangeBoundingBoxes vehicles in
  ∃ road_to_vehicles_table sorted_roads front_road back_road first_vehicle last_vehicle,
    sortByDistance vehicle_transforms (arrangeByRoads vehicle_transforms)
    = Ok road_to_vehicles_table ∧
    sortRoads uset_begin (dom road_to_vehicles_table) = Ok sorted_roads ∧
    head sorted_roads = Some front_road ∧
    last sorted_roads = Some back_road ∧
    (on_road vehicle_transforms front_road first_vehicle ∧
     ∀ v d0 d, on_road vehicle_transforms front_road v →
       vehicleDistance vehicle_transforms first_vehicle = Ok d0 →
       vehicleDistance vehicle_transforms v = Ok d → (d0 ≤ d)%Qc) ∧
    (on_road vehicle_transforms back_road last_vehicle ∧
     ∀ v d1 d, on_road vehicle_transforms back_road v →
       vehicleDistance vehicle_transforms last_vehicle = Ok d1 →
       vehicleDistance vehicle_transforms v = Ok d → (d ≤ d1)%Qc) ∧
    start = vehicleRearWaypoint (vehicle_transforms !!! first_vehicle)
                                (vehicle_bounding_boxes !!! first_vehicle) ∧
    let last_waypoint :=
      vehicleHeadWaypoint (vehicle_transforms !!! last_vehicle)
                          (vehicle_bounding_boxes !!! last_vehicle) in
    ∃ front_trim back_trim,
      (if decide (GetRoadId start = front_road)
       then ∃ d, waypointToRoadStartDistance start = Ok d ∧ front_trim = (- d)%Qc
       else front_trim = lit 5.0) ∧
      (if decide (GetRoadId last_waypoint = back_road)
       then ∃ d, waypointToRoadStartDistance last_waypoint = Ok d ∧
                 back_trim = (- (GetLength back_road - d))%Qc
       else back_trim = lit 5.0) ∧
      range = (roadsLength sorted_roads + front_trim + back_trim)%Qc.

Lemma latticeStartAndRange_Ok (vehicles : list VehicleTuple)
  (start : CarlaWaypoint) (range : double) :
  std_sort_spec →
  latticeStartAndRange vehicles = Ok (start, range) →
  start_and_range_of vehicles start range.
Proof.
  intros Hspec Hrun. unfold start_and_range_of. cbv zeta.
  set (vehicle_transforms := arrangeTransforms vehicles).
  set (vehicle_bounding_boxes := arrangeBoundingBoxes vehicles).
  unfold latticeStartAndRange in Hrun. cbv zeta in Hrun.
  fold vehicle_transforms vehicle_bounding_boxes in Hrun.
  apply bind_Ok in Hrun as (table' & Htable & Hrun).
  apply bind_Ok in Hrun as (sorted_roads & Hroads & Hrun).
  apply bind_Ok in Hrun as (front_road & Hfront%defined_Ok & Hrun).
  apply bind_Ok in Hrun as (back_road & Hback%defined_Ok & Hrun).
  apply bind_Ok in Hrun as (first_vehicle & Hfirst%defined_Ok & Hrun).
  apply bind_Ok in Hrun as (last_vehicle & Hlast%defined_Ok & Hrun).
  apply bind_Ok in Hrun as (range1 & Hrange1 & Hrun).
  apply bind_Ok in Hrun as (range2 & Hrange2 & [= <- <-]).
  exists table', sorted_roads, front_road, back_road, first_vehicle, last_vehicle.
  destruct (sorted_road_ends vehicle_transforms table' front_road Hspec Htable)
    as [Hleast _].
  destruct (sorted_road_ends vehicle_transforms table' back_road Hspec Htable)
    as [_ Hgreatest].
  split_and!; [done..|by apply Hleast|by apply Hleast
              |by apply Hgreatest|by apply Hgreatest|done|].
  - cbv zeta.
    set (first_waypoint := vehicleRearWaypoint _ _) in *.
    set (last_waypoint := vehicleHeadWaypoint _ _) in *.
    assert (∃ front_trim,
              (if decide (GetRoadId first_waypoint = front_road)
               then ∃ d, waypointToRoadStartDistance first_waypoint = Ok d ∧
                         front_trim = (- d)%Qc
               else front_trim = lit 5.0) ∧
              range1 = (roadsLength sorted_roads + front_trim)%Qc)
      as (front_trim & Hfront_trim & ->).
    { destruct (decide (GetRoadId first_waypoint = front_road)).
      - apply bind_Ok in Hrange1 as (d & Hd & [= <-]). exists (- d)%Qc.
        split; [by exists d|done].
      - injection Hrange1 as <-. by exists (lit 5.0). }
    assert (∃ back_trim,
              (if decide (GetRoadId last_waypoint = back_road)
               then ∃ d, waypointToRoadStartDistance last_waypoint = Ok d ∧
                         back_trim = (- (GetLength back_road - d))%Qc
               else back_trim = lit 5.0) ∧
              range2 = (roadsLength sorted_roads + front_trim + back_trim)%Qc)
      as (back_trim & Hback_trim & ->).
    { destruct (decide (GetRoadId last_waypoint = back_road)).
      - apply bind_Ok in Hrange2 as (d & Hd & [= <-]).
        exists (- (GetLength back_road - d))%Qc. split; [by exists d|done].
      - injection Hrange2 as <-. by exists (lit 5.0). }
    by exists front_trim, back_trim.
Qed.

(** The estimator returns whenever the roads of the vehicles can be
    chained and the map resolves no point to lane 0. *)
Lemma latticeStartAndRange_returns (vehicles : list VehicleTuple) (sorted_roads : list N) :
  std_sort_spec → std_sort_total → begin_spec uset_begin → lanes_nonzero →
  sortRoads uset_begin (dom (arrangeByRoads (arrangeTransforms vehicles)))
  = Ok sorted_roads →
  ∃ start range, latticeStartAndRange vehicles = Ok (start, range).
Proof.
  intros Hspec Htotal Hbegin Hlanes Hroads.
  unfold latticeStartAndRange. cbv zeta.
  set (vehicle_transforms := arrangeTransforms vehicles) in *.
  set (table := arrangeByRoads vehicle_transforms) in *.
  destruct (sortByDistance_total vehicle_transforms table Htotal) as (table' & Htable & Hdom).
  { intros v. apply waypointToRoadStartDistance_Ok, Hlanes. }
  rewrite Htable. simpl. rewrite Hdom, Hroads. simpl.
  destruct (sortRoads_Ok_ends _ _ _ Hbegin Hroads)
    as (front_road & back_road & -> & -> & Hfront & Hback). simpl.
  assert (∀ road, road ∈ dom table → table' !!! road ≠ []) as Hnonempty.
  { intros road Hroad. pose proof Hroad as Hroad'.
    rewrite <- Hdom in Hroad'. apply elem_of_dom in Hroad as [vs Hvs], Hroad' as [vs' Hvs'].
    rewrite (lookup_total_correct _ _ _ Hvs').
    destruct (Hspec _ _ _ (sortByDistance_Ok _ _ _ _ _ Htable Hvs')) as [Hperm _].
    rewrite (lookup_total_correct _ _ _ Hvs) in Hperm.
    intros ->. apply Permutation_nil_l in Hperm.
    by apply (arrangeByRoads_nonempty _ _ _ Hvs). }
  destruct (table' !!! front_road) as [|first_vehicle l] eqn:Hfirst;
    [by apply Hnonempty in Hfront|].
  destruct (last (table' !!! back_road)) as [last_vehicle|] eqn:Hlast.
  2: { apply last_None in Hlast. by apply Hnonempty in Hback. }
  simpl.
  set (first_waypoint := vehicleRearWaypoint _ _).
  set (last_waypoint := vehicleHeadWaypoint _ _).
  destruct (waypointToRoadStartDistance_Ok first_waypoint) as [d0 Hd0]; [apply Hlanes|].
  destruct (waypointToRoadStartDistance_Ok last_waypoint) as [d1 Hd1]; [apply Hlanes|].
  rewrite Hd0, Hd1. repeat case_decide; simpl; eauto.
Qed.

Lemma arrange_lookup {A} (f : VehicleTuple → A) (vehicles : list VehicleTuple) (id : N) :
  foldl (λ (table : gmap N A) vehicle, <[vehicle.1.1 := f vehicle]> table) ∅ vehicles !! id
  = f <$> last (filter (λ v, v.1.1 = id) vehicles).
Proof.
  induction vehicles as [|v vehicles IH] using rev_ind; [done|].
  rewrite foldl_app, filter_app. simpl. rewrite lookup_insert.
  rewrite filter_cons, filter_nil. case_decide as Hid.
  - by rewrite last_snoc.
  - by rewrite app_nil_r.
Qed.

Lemma arrangeByRoads_dom (vehicle_transforms : gmap N CarlaTransform) (road : N) :
  road ∈ dom (arrangeByRoads vehicle_transforms) ↔ ∃ v, on_road vehicle_transforms road v.
Proof.
  rewrite elem_of_dom. split.
  - intros [vs Hvs]. pose proof (arrangeByRoads_nonempty _ _ _ Hvs) as Hne.
    destruct vs as [|v vs]; [done|]. exists v. apply arrangeByRoads_elem.
    rewrite (lookup_total_correct _ _ _ Hvs). by left.
  - intros [v Hv%arrangeByRoads_elem]. rewrite lookup_total_alt in Hv.
    destruct (arrangeByRoads vehicle_transforms !! road); [done|].
    by apply elem_of_nil in Hv.
Qed.

Lemma sortByDistance_dom (vehicle_transforms : gmap N CarlaTransform)
  (table table' : gmap N (list N)) :
  sortByDistance vehicle_transforms table = Ok table' → dom table' = dom table.
Proof.
  unfold sortByDistance.
  assert (dom table = list_to_set (map_to_list table).*1) as ->.
  { apply set_eq. intros road.
    rewrite elem_of_dom, elem_of_list_to_set, list_elem_of_fmap. split.
    - intros [vs Hvs]. exists (road, vs). by rewrite elem_of_map_to_list.
    - intros ([road' vs] & -> & ?%elem_of_map_to_list). by exists vs. }
  revert table'. induction (map_to_list table) as [|[road vs] l IH]; intros table'; simpl.
  - intros [= <-]. by rewrite dom_empty_L.
  - intros (table1 & Hacc & (sorted & _ & [= <-])%bind_Ok)%bind_Ok.
    by rewrite dom_insert_L, (IH _ Hacc).
Qed.

(** *** From the tables of the estimator to the vehicles of the list *)

Lemma kept_elem (vehicles : list VehicleTuple) (v : VehicleTuple) :
  kept vehicles v → v ∈ vehicles.
Proof.
  unfold kept. intros [l Hl]%last_Some.
  assert (v ∈ filter (λ v', v'.1.1 = v.1.1) vehicles) as [_ ?]%list_elem_of_filter; [|done].
  rewrite Hl. apply elem_of_app. right. by left.
Qed.

Lemma kept_lookup (vehicles : list VehicleTuple) (v : VehicleTuple) :
  kept vehicles v →
  arrangeTransforms vehicles !! v.1.1 = Some v.1.2 ∧
  arrangeBoundingBoxes vehicles !! v.1.1 = Some v.2.
Proof.
  unfold kept, arrangeTransforms, arrangeBoundingBoxes. intros Hv.
  by rewrite (arrange_lookup (λ v, v.1.2)), (arrange_lookup (λ v, v.2)), Hv.
Qed.

Lemma on_road_kept (vehicles : list VehicleTuple) (road id : N) :
  on_road (arrangeTransforms vehicles) road id ↔
  ∃ v, kept vehicles v ∧ v.1.1 = id ∧ GetRoadId (vehicleWaypoint v.1.2) = road.
Proof.
  split.
  - intros (transform & Htransform & Hroad). unfold arrangeTransforms in Htransform.
    rewrite (arrange_lookup (λ v, v.1.2)) in Htransform.
    destruct (last (filter (λ v', v'.1.1 = id) vehicles)) as [v|] eqn:Hlast; [|done].
    injection Htransform as <-.
    assert (v.1.1 = id) as Hid.
    { apply last_Some in Hlast as [l Hl].
      assert (v ∈ filter (λ v', v'.1.1 = id) vehicles) as [? _]%list_elem_of_filter; [|done].
      rewrite Hl. apply elem_of_app. right. by left. }
    exists v. split_and!; [|done..]. unfold kept. by rewrite Hid.
  - intros (v & [Htransform _]%kept_lookup & <- & <-). by exists v.1.2.
Qed.

Lemma roadsLength_total (sorted_roads : list N) :
  total_length sorted_roads (roadsLength sorted_roads).
Proof.
  induction sorted_roads as [|r l IH] using rev_ind; [constructor|].
  unfold roadsLength. rewrite foldl_app. simpl. by constructor.
Qed.

Lemma vehicle_roads (vehicles : list VehicleTuple) (road : N) :
  road ∈ dom (arrangeByRoads (arrangeTransforms vehicles)) ↔
  ∃ v, kept vehicles v ∧ GetRoadId (vehicleWaypoint v.1.2) = road.
Proof.
  rewrite arrangeByRoads_dom. split.
  - intros (id & (v & ? & _ & ?)%on_road_kept). by exists v.
  - intros (v & ? & ?). exists v.1.1. apply on_road_kept. by exists v.
Qed.

Lemma start_and_range_of_spec (vehicles : list VehicleTuple)
  (start : CarlaWaypoint) (range : double) :
  start_and_range_of vehicles start range → start_and_range_spec vehicles start range.
Proof.
  unfold start_and_range_of. cbv zeta.
  intros (table' & sorted_roads & front_road & back_road & first_id & last_id
          & Htable & Hsorted & Hfront & Hback & [Hfirst Hleast] & [Hlast Hgreatest]
          & -> & front_trim & back_trim & Hft & Hbt & ->).
  apply on_road_kept in Hfirst as (first_vehicle & Hfirst & <- & Hfirst_road).
  apply on_road_kept in Hlast as (last_vehicle & Hlast & <- & Hlast_road).
  destruct (kept_lookup _ _ Hfirst) as [Hft1 Hfb1].
  destruct (kept_lookup _ _ Hlast) as [Hlt1 Hlb1].
  rewrite (lookup_total_correct _ _ _ Hft1), (lookup_total_correct _ _ _ Hfb1) in *.
  rewrite (lookup_total_correct _ _ _ Hlt1), (lookup_total_correct _ _ _ Hlb1) in *.
  assert (∀ v, kept vehicles v →
            vehicleDistance (arrangeTransforms vehicles) v.1.1
            = waypointToRoadStartDistance (vehicleWaypoint v.1.2)) as Hdist.
  { intros v [Hv _]%kept_lookup. unfold vehicleDistance.
    by rewrite (lookup_total_correct _ _ _ Hv). }
  exists (dom table'), sorted_roads, front_road, back_road, first_vehicle, last_vehicle,
    (roadsLength sorted_roads).
  split_and!; [|done|done|done|apply roadsLength_total|done|done| |done|done| |done|].
  - intros road. rewrite (sortByDistance_dom _ _ _ Htable). apply vehicle_roads.
  - intros v d0 d Hv Hroad Hd0 Hd.
    apply (Hleast v.1.1 d0 d); [|by rewrite Hdist..].
    apply on_road_kept. by exists v.
  - intros v d1 d Hv Hroad Hd1 Hd.
    apply (Hgreatest v.1.1 d1 d); [|by rewrite Hdist..].
    apply on_road_kept. by exists v.
  - cbv zeta. exists (roadsLength sorted_roads + front_trim)%Qc. split.
    + destruct (decide (GetRoadId (vehicleRearWaypoint _ _) = front_road));
        [|by rewrite Hft]. destruct Hft as (d & ? & ->). by exists d.
    + destruct (decide (GetRoadId (vehicleHeadWaypoint _ _) = back_road));
        [|by rewrite Hbt]. destruct Hbt as (d & ? & ->). by exists d.
Qed.

(** C4. Whenever [latticeStartAndRange] returns, the start is the rear
    waypoint of the first vehicle, the vehicle of the list with the least
    distance on the first road of the chain, and the range is the sum of
    the lengths of the roads of the chain, less the distance of the rear
    waypoint if it is on the first road and plus 5.0 if not, and less what
    is left of the last road beyond the head waypoint of the last vehicle
    if that is on the last road and plus 5.0 if not.  And it returns
    whenever the roads the vehicles are on can be chained and the map
    resolves no point to lane 0. *)
Theorem latticeStartAndRange_spec (vehicles : list VehicleTuple) :
  std_sort_spec →
  (∀ start range,
     latticeStartAndRange vehicles = Ok (start, range) →
     start_and_range_spec vehicles start range) ∧
  (std_sort_total → begin_spec uset_begin → lanes_nonzero →
   ∀ roads sorted_roads,
     (∀ road, road ∈ roads ↔
        ∃ v, kept vehicles v ∧ GetRoadId (vehicleWaypoint v.1.2) = road) →
     sortRoads uset_begin roads = Ok sorted_roads →
     ∃ start range,
       latticeStartAndRange vehicles = Ok (start, range) ∧
       start_and_range_spec vehicles start range).
Proof.
  intros Hspec. split.
  - intros start range Hrun. by apply start_and_range_of_spec, latticeStartAndRange_Ok.
  - intros Htotal Hbegin Hlanes roads sorted_roads Hroads Hsorted.
    assert (roads = dom (arrangeByRoads (arrangeTransforms vehicles))) as ->.
    { apply set_eq. intros road. by rewrite Hroads, vehicle_roads. }
    destruct (latticeStartAndRange_returns vehicles sorted_roads)
      as (start & range & Hrun); [done..|].
    exists start, range. split; [done|].
    by apply start_and_range_of_spec, latticeStartAndRange_Ok.
Qed.

End Estimator.

(** A [std::sort] for the examples: merge sort on the keys; a range of
    fewer than two elements needs no comparison. *)
Definition key_le (p q : double * N) : Prop := (p.1 ≤ q.1)%Qc.

#[global] Instance key_le_dec : RelDecision key_le.
Proof. intros p q. unfold key_le. apply _. Defined.

Definition sort_by_key (key : N → result double) (l : list N) : result (list N) :=
  match l with
  | [] | [_] => Ok l
  | _ =>
    keyed ← mapM (λ v, d ← key v; Ok (d, v)) l;
    Ok ((merge_sort key_le keyed).*2)
  end.

#[global] Instance key_le_transitive : Transitive key_le.
Proof. intros p q r. unfold key_le. apply Qcle_trans. Qed.

#[global] Instance key_le_total : Total key_le.
Proof. intros p q. unfold key_le. apply (total Qcle). Qed.

Lemma StronglySorted_lookup {A} (R : relation A) (l : list A) (i j : nat) (x y : A) :
  StronglySorted R l → i < j → l !! i = Some x → l !! j = Some y → R x y.
Proof.
  intros Hsorted Hij Hi Hj. rewrite <- (take_drop j l) in Hsorted.
  apply (StronglySorted_app_1_elem_of _ _ _ _ _ Hsorted).
  - apply (list_elem_of_lookup_2 _ i). by rewrite lookup_take_lt.
  - apply (list_elem_of_lookup_2 _ 0). by rewrite lookup_drop, Nat.add_0_r.
Qed.

Lemma mapM_keyed (key : N → result double) (l : list N) (keyed : list (double * N)) :
  mapM (λ v, d ← key v; Ok (d, v)) l = Ok keyed →
  keyed.*2 = l ∧ ∀ p, p ∈ keyed → key p.2 = Ok p.1.
Proof.
  revert keyed. induction l as [|v l IH]; intros keyed; simpl.
  - intros [= <-]. split; [done|]. by intros p ?%elem_of_nil.
  - intros (p & (d & Hd & [= <-])%bind_Ok & (keyed' & Hl & [= <-])%bind_Ok)%bind_Ok.
    destruct (IH _ Hl) as [<- Hkeys]. split; [done|].
    intros p [->|?]%elem_of_cons; [done|]. by apply Hkeys.
Qed.

Lemma sort_by_key_spec : std_sort_spec sort_by_key.
Proof.
  intros key l l' Hsort.
  assert (length l ≤ 1 ∧ l' = l ∨
          ∃ keyed, mapM (λ v, d ← key v; Ok (d, v)) l = Ok keyed ∧
                   l' = (merge_sort key_le keyed).*2) as [[Hlen ->]|(keyed & Hkeyed & ->)].
  { destruct l as [|a [|b l]]; simpl in Hsort.
    - left. split; [simpl; lia|congruence].
    - left. split; [simpl; lia|congruence].
    - right. apply bind_Ok in Hsort as (keyed & ? & [= <-]). by exists keyed. }
  - split; [done|]. intros i j a b da db Hij Hi Hj.
    apply lookup_lt_Some in Hj. lia.
  - apply mapM_keyed in Hkeyed as [<- Hkeys]. split.
    + by rewrite merge_sort_Permutation.
    + intros i j a b da db Hij Hi Hj Ha Hb.
      rewrite list_lookup_fmap in Hi, Hj.
      destruct (merge_sort key_le keyed !! i) as [[da' a']|] eqn:Hi'; [|done].
      destruct (merge_sort key_le keyed !! j) as [[db' b']|] eqn:Hj'; [|done].
      simplify_eq/=.
      pose proof (StronglySorted_lookup key_le _ i j _ _
                    (StronglySorted_merge_sort key_le keyed) Hij Hi' Hj') as Hle.
      assert (key a = Ok da') as Ha'.
      { apply (Hkeys (da', a)). rewrite <- (merge_sort_Permutation key_le).
        by eapply list_elem_of_lookup_2. }
      assert (key b = Ok db') as Hb'.
      { apply (Hkeys (db', b)). rewrite <- (merge_sort_Permutation key_le).
        by eapply list_elem_of_lookup_2. }
      unfold key_le in Hle. simpl in Hle. congruence.
Qed.

(** Roads 0, 1, 2, ... of length 50 each in a row along the x axis, lane
    -1; one waypoint per unit of x. *)
Definition row_map : CarlaMap :=
  {| GetWaypoint := λ p,
       {| GetId := Z.to_N (Qfloor (loc_x p));
          GetRoadId := Z.to_N (Qfloor (loc_x p) / 50);
          GetLaneId := -1;
          GetDistance := (loc_x p - Q2Qc (inject_Z (50 * (Qfloor (loc_x p) / 50))))%Qc |};
     GetLength := λ _, lit 50 |}.


(** ** The constructors *)

Section Construction.
Context `{map_ : CarlaMap} `{cmath : CMath} `{router_ : Router}.
Variable uset_begin : gset N → option N.
Variable std_sort : (N → result double) → list N → result (list N).

(** The base lattice, which is not part of this file of the planner:
    [extend start range resolution] makes the start node and extends the
    lattice forward by [range], giving the nodes, or throws;
    [closestNode nodes] looks up a waypoint among these nodes. *)
Variable extend : CarlaWaypoint → double → double → result (gmap N Node).
Variable closestNode : gmap N Node → CarlaWaypoint → double → option N.

Definition baseConstructor (start : CarlaWaypoint) (range : double)
  (longitudinal_resolution : double) : result TrafficLattice :=
  if decide (range ≤ longitudinal_resolution)%Qc then Throw RangeTooSmall
  else
    nodes ← extend start range longitudinal_resolution;
    Ok {| nodes_ := nodes;
          longitudinal_resolution_ := longitudinal_resolution;
          vehicle_to_nodes_table_ := ∅ |}.

(** [TrafficLattice(const std::vector<VehicleTuple>&, map, router)] *)
Definition newTrafficLattice (vehicles : list VehicleTuple) : result TrafficLattice :=
  start_and_range ← latticeStartAndRange uset_begin std_sort vehicles;
  L ← baseConstructor start_and_range.1 start_and_range.2 (lit 1.0);
  match registerVehicles (closestNode (nodes_ L)) L vehicles with
  | (L', Ok true) => Ok L'
  | (_, Ok false) => Throw CollisionsDetected
  | (_, Throw e) => Throw e
  end.

(** [TrafficLattice(const std::vector<shared_ptr<const CarlaVehicle>>&, map, router)] *)
Definition newTrafficLatticeOfVehicles (vehicles : list CarlaVehicle)
  : result TrafficLattice :=
  let vehicle_tuples :=
    (λ vehicle, (vehicle_GetId vehicle, vehicle_GetTransform vehicle,
                 vehicle_GetBoundingBox vehicle)) <$> vehicles in
  newTrafficLattice vehicle_tuples.

(** C1. A pass of [registerVehicles] that does not return true has
    stopped in the body of one vehicle, with the outcome of that body, and
    keeps what the vehicles before it left: the table holds an entry for
    each of them and for no other id, every node recorded in it is still
    marked with the id it is recorded for, and no mark is taken back.  It
    is construction that is all or nothing: a constructor yields a lattice
    only from a pass that returned true for the whole list. *)
Theorem registerVehicles_failure (L0 : TrafficLattice) (vehicles : list VehicleTuple) :
  (∀ cn L' r,
     registerVehicles cn L0 vehicles = (L', r) → r ≠ Ok true →
     ∃ vs1 v vs2 L1,
       vehicles = vs1 ++ v :: vs2 ∧
       registerVehicles cn L0 vs1 = (L1, Ok true) ∧
       registerVehicle cn L1 v = (L', r) ∧
       vehicle_to_nodes_table_ L' = vehicle_to_nodes_table_ L1 ∧
       dom (vehicle_to_nodes_table_ L') = list_to_set (vs1.*1).*1 ∧
       (∀ id nodes n,
          vehicle_to_nodes_table_ L' !! id = Some nodes → n ∈ nodes →
          ∃ node, nodes_ L' !! n = Some node ∧ vehicle node = Some id) ∧
       (∀ n node, nodes_ L1 !! n = Some node → vehicle node ≠ None →
          nodes_ L' !! n = Some node)) ∧
  (∀ L, newTrafficLattice vehicles = Ok L →
     ∃ L1, registerVehicles (closestNode (nodes_ L1)) L1 vehicles = (L, Ok true)).
Proof.
  split.
  - unfold registerVehicles. intros cn L' r Hloop Hr.
    destruct (registerLoop_stops cn _ _ _ _ Hloop Hr)
      as (vs1 & v & vs2 & L1 & -> & Hvs1 & Hv).
    assert (vehicle_to_nodes_table_ L' = vehicle_to_nodes_table_ L1) as Htable
      by (by apply (registerVehicle_state cn) in Hv as (_ & _ & ->)).
    assert (∀ n node, nodes_ L1 !! n = Some node → vehicle node ≠ None →
              nodes_ L' !! n = Some node) as Hmarks
      by (intros n node; by apply (registerVehicle_marks cn L1 L' v r)).
    exists vs1, v, vs2, L1. split_and!; [done..| | |done].
    + rewrite Htable, (registerLoop_dom cn _ _ _ Hvs1). simpl.
      rewrite dom_empty_L. set_solver.
    + intros id nodes n Hnodes Hn. rewrite Htable in Hnodes.
      assert (table_marked L1) as Hmarked.
      { eapply (registerLoop_table_marked cn); [|done]. intros id' nodes' n'. simpl.
        by rewrite lookup_empty. }
      destruct (Hmarked id nodes n Hnodes Hn) as (node & Hnode & Hid).
      exists node. split; [|done]. apply Hmarks; [done|]. by rewrite Hid.
  - unfold newTrafficLattice.
    intros L (start_and_range & _ & (L1 & _ & Hreg)%bind_Ok)%bind_Ok.
    exists L1. destruct (registerVehicles _ L1 vehicles) as [L' [[]|]]; by simplify_eq.
Qed.

End Construction.

Section ConstructionFacts.
Context `{map_ : CarlaMap} `{cmath : CMath} `{router_ : Router}.
Variable uset_begin : gset N → option N.
Variable std_sort : (N → result double) → list N → result (list N).
Variable extend : CarlaWaypoint → double → double → result (gmap N Node).

Lemma registerLoop_tolerance (cn cn' : CarlaWaypoint → double → option N)
  (L : TrafficLattice) (vehicles : list VehicleTuple) :
  (∀ w, cn w (longitudinal_resolution_ L / lit 2.0)%Qc
        = cn' w (longitudinal_resolution_ L / lit 2.0)%Qc) →
  registerLoop cn L vehicles = registerLoop cn' L vehicles.
Proof.
  revert L. induction vehicles as [|v vs IH]; intros L Hcn; [done|]. simpl.
  assert (registerVehicle cn L v = registerVehicle cn' L v) as <-.
  { unfold registerVehicle, vehicleNodes. destruct v as [[id transform] bounding_box].
    by rewrite !Hcn. }
  destruct (registerVehicle cn L v) as [L1 r] eqn:Hv.
  destruct r as [[]|]; [|done..].
  apply IH. apply registerVehicle_links in Hv as [_ ->]. done.
Qed.

Lemma half_resolution : (lit 1.0 / lit 2.0)%Qc = lit 0.5.
Proof. by apply Qc_is_canon. Qed.

(** C10. Both constructors build the lattice with a longitudinal
    resolution of 1.0, whatever the caller does; registration looks up
    nodes with a tolerance of 0.5 and no other; and construction throws
    the range-too-small error whenever the estimated range is at most
    1.0. *)
Theorem constructor_resolution
  (closestNode closestNode' : gmap N Node → CarlaWaypoint → double → option N)
  (vehicles : list VehicleTuple) (handles : list CarlaVehicle) :
  (∀ L, newTrafficLattice uset_begin std_sort extend closestNode vehicles = Ok L →
        longitudinal_resolution_ L = lit 1.0) ∧
  (∀ L, newTrafficLatticeOfVehicles uset_begin std_sort extend closestNode handles = Ok L →
        longitudinal_resolution_ L = lit 1.0) ∧
  ((∀ nodes w, closestNode nodes w (lit 0.5) = closestNode' nodes w (lit 0.5)) →
   newTrafficLattice uset_begin std_sort extend closestNode vehicles
   = newTrafficLattice uset_begin std_sort extend closestNode' vehicles ∧
   newTrafficLatticeOfVehicles uset_begin std_sort extend closestNode handles
   = newTrafficLatticeOfVehicles uset_begin std_sort extend closestNode' handles) ∧
  (∀ start range,
     latticeStartAndRange uset_begin std_sort vehicles = Ok (start, range) →
     (range ≤ lit 1.0)%Qc →
     newTrafficLattice uset_begin std_sort extend closestNode vehicles
     = Throw RangeTooSmall) ∧
  (∀ start range,
     latticeStartAndRange uset_begin std_sort
       ((λ vehicle, (vehicle_GetId vehicle, vehicle_GetTransform vehicle,
                     vehicle_GetBoundingBox vehicle)) <$> handles) = Ok (start, range) →
     (range ≤ lit 1.0)%Qc →
     newTrafficLatticeOfVehicles uset_begin std_sort extend closestNode handles
     = Throw RangeTooSmall).
Proof.
  assert (∀ cn vs L, newTrafficLattice uset_begin std_sort extend cn vs = Ok L →
            longitudinal_resolution_ L = lit 1.0) as Hres.
  { unfold newTrafficLattice.
    intros cn vs L (start_and_range & _ & (L1 & Hbase & Hreg)%bind_Ok)%bind_Ok.
    unfold baseConstructor in Hbase. case_decide; [done|].
    apply bind_Ok in Hbase as (nodes & _ & [= <-]).
    destruct (registerVehicles _ _ vs) as [L' r] eqn:Hloop.
    apply registerLoop_links in Hloop as [_ Hres].
    destruct r as [[]|]; by simplify_eq. }
  assert (∀ vs, (∀ nodes w, closestNode nodes w (lit 0.5) = closestNode' nodes w (lit 0.5)) →
            newTrafficLattice uset_begin std_sort extend closestNode vs
            = newTrafficLattice uset_begin std_sort extend closestNode' vs) as Htol.
  { intros vs Hcn. unfold newTrafficLattice.
    destruct (latticeStartAndRange _ _ vs) as [start_and_range|]; [|done]. simpl.
    destruct (baseConstructor _ _ _ _) as [L1|] eqn:Hbase; [|done]. simpl.
    unfold baseConstructor in Hbase. case_decide; [done|].
    apply bind_Ok in Hbase as (nodes & _ & [= <-]).
    unfold registerVehicles. simpl.
    rewrite (registerLoop_tolerance (closestNode nodes) (closestNode' nodes)); [done|].
    intros w. simpl. rewrite half_resolution. apply Hcn. }
  assert (∀ cn vs start range,
            latticeStartAndRange uset_begin std_sort vs = Ok (start, range) →
            (range ≤ lit 1.0)%Qc →
            newTrafficLattice uset_begin std_sort extend cn vs = Throw RangeTooSmall)
    as Hsmall.
  { intros cn vs start range Hrun Hrange. unfold newTrafficLattice.
    rewrite Hrun. simpl. unfold baseConstructor. by rewrite decide_True. }
  split_and!.
  - apply Hres.
  - apply Hres.
  - intros Hcn. split; by apply Htol.
  - apply Hsmall.
  - apply Hsmall.
Qed.

End ConstructionFacts.

(** ** Worked examples *)

Lemma waypointToRoadStartDistance_spec_witness :
  @waypointToRoadStartDistance straight_map
    {| GetId := 3; GetRoadId := 1; GetLaneId := 1; GetDistance := lit 30 |}
  = Ok (lit 100 - lit 30)%Qc ∧
  @waypointToRoadStartDistance straight_map
    {| GetId := 3; GetRoadId := 1; GetLaneId := -2; GetDistance := lit 30 |}
  = Ok (lit 30) ∧
  @waypointToRoadStartDistance straight_map
    {| GetId := 3; GetRoadId := 1; GetLaneId := 0; GetDistance := lit 30 |}
  = Throw LaneIdZero.
Proof.
  split_and!.
  - apply (@waypointToRoadStartDistance_spec straight_map). simpl. lia.
  - apply (@waypointToRoadStartDistance_spec straight_map). simpl. lia.
  - apply (@waypointToRoadStartDistance_spec straight_map). reflexivity.
Defined.

(** Two cars on ten nodes in a row.  The second car reaches back over the
    first: node 0 is marked for it, node 1 is taken, and the pass returns
    false with car 7 still in the table and on its nodes. *)
Lemma registerVehicles_leaves_marks :
  let r := @registerVehicles straight_map yaw0_math straight_closestNode
             (straight_lattice 10) [car 7 2 1; car 8 3 3] in
  r.2 = Ok false ∧
  vehicle_to_nodes_table_ r.1 = {[ 7%N := [1; 2; 3]%N ]} ∧
  vehicle <$> nodes_ r.1 !! 1%N = Some (Some 7%N) ∧
  vehicle <$> nodes_ r.1 !! 0%N = Some (Some 8%N).
Proof. vm_compute. done. Qed.

Lemma registerVehicles_failure_witness :
  ∃ vs1 v vs2 L1,
    [car 7 2 1; car 8 3 3] = vs1 ++ v :: vs2 ∧
    @registerVehicles straight_map yaw0_math straight_closestNode
      (straight_lattice 10) vs1 = (L1, Ok true) ∧
    (@registerVehicle straight_map yaw0_math straight_closestNode L1 v).2 = Ok false ∧
    dom (vehicle_to_nodes_table_ L1) = list_to_set (vs1.*1).*1.
Proof.
  destruct (proj1 (@registerVehicles_failure straight_map yaw0_math (line_router 1)
                     elements_begin sort_by_key (λ _ _ _, Ok (straight_nodes 10))
                     (λ _, straight_closestNode)
                     (straight_lattice 10) [car 7 2 1; car 8 3 3])
              straight_closestNode _ _ eq_refl)
    as (vs1 & v & vs2 & L1 & Hsplit & Hvs1 & Hv & Htable & Hdom & _); [done|].
  exists vs1, v, vs2, L1. split_and!; [done|done|by rewrite Hv|by rewrite <- Htable].
Defined.

Lemma registerVehicles_no_double_occupancy_witness :
  ∃ L', @registerVehicles straight_map yaw0_math straight_closestNode
          (straight_lattice 10) [car 7 2 1; car 8 6 2] = (L', Ok true) ∧
    ∀ nodes1 nodes2,
      vehicle_to_nodes_table_ L' !! 7%N = Some nodes1 →
      vehicle_to_nodes_table_ L' !! 8%N = Some nodes2 →
      ∀ n, n ∈ nodes1 → n ∉ nodes2.
Proof.
  eexists. split; [reflexivity|].
  intros nodes1 nodes2.
  by apply (@registerVehicles_no_double_occupancy straight_map yaw0_math
              straight_closestNode (straight_lattice 10) _ [car 7 2 1; car 8 6 2]
              eq_refl).
Defined.


Lemma registerVehicles_permutation_witness :
  ∃ L', @registerVehicles straight_map yaw0_math straight_closestNode
          (straight_lattice 10) [car 7 2 1; car 8 6 2] = (L', Ok true) ∧
        @registerVehicles straight_map yaw0_math straight_closestNode
          (straight_lattice 10) [car 8 6 2; car 7 2 1] = (L', Ok true).
Proof.
  eexists. split; [reflexivity|].
  apply (@registerVehicles_permutation straight_map yaw0_math straight_closestNode
           (straight_lattice 10) [car 7 2 1; car 8 6 2] [car 8 6 2; car 7 2 1]).
  - apply perm_swap.
  - simpl. apply NoDup_cons. split; [|apply NoDup_singleton].
    by intros [=]%list_elem_of_singleton.
  - reflexivity.
Defined.

(** Three cars with distinct ids on ten nodes: car 8 overlaps car 7, and
    the head of car 9 is beyond the last node.  Taken in the order 7, 8, 9
    the pass returns false at car 8; with car 9 first it throws the
    nodes-not-found error.  And with one id given to two cars that do not
    overlap, both orders go through but record different nodes for it. *)
Lemma registerVehicles_order_changes_failure :
  let vehicles := [car 7 2 1; car 8 3 1; car 9 9 2] in
  let vehicles' := [car 9 9 2; car 7 2 1; car 8 3 1] in
  let register := @registerVehicles straight_map yaw0_math (short_closestNode 10)
                    (straight_lattice 10) in
  vehicles ≡ₚ vehicles' ∧
  (vehicles.*1).*1 = [7; 8; 9]%N ∧
  (register vehicles).2 = Ok false ∧
  (register vehicles').2 = Throw NodesNotFound ∧
  (register [car 7 2 1; car 7 6 1]).2 = Ok true ∧
  (register [car 7 6 1; car 7 2 1]).2 = Ok true ∧
  vehicle_to_nodes_table_ (register [car 7 2 1; car 7 6 1]).1 !! 7%N = Some [5; 6; 7]%N ∧
  vehicle_to_nodes_table_ (register [car 7 6 1; car 7 2 1]).1 !! 7%N = Some [1; 2; 3]%N.
Proof.
  split_and!; [|by vm_compute..].
  change [car 9 9 2; car 7 2 1; car 8 3 1] with ([car 9 9 2] ++ [car 7 2 1; car 8 3 1]).
  change [car 7 2 1; car 8 3 1; car 9 9 2] with ([car 7 2 1; car 8 3 1] ++ [car 9 9 2]).
  apply Permutation_app_comm.
Qed.

(** Three cars on roads 0 and 2 of a row of roads of length 50: the chain
    is 0, 1, 2, the lattice starts at the rear of the car at x = 20 and
    spans 150 - 18 - (50 - 23) = 105. *)
Lemma sort_by_key_total : std_sort_total sort_by_key.
Proof.
  intros key l Hkeys. unfold sort_by_key.
  assert (∃ keyed, mapM (λ v, d ← key v; Ok (d, v)) l = Ok keyed) as [keyed Hkeyed].
  { induction l as [|v l IH]; simpl; [by eexists|].
    destruct (Hkeys v) as [d ->]; [by left|]. simpl.
    destruct IH as [keyed ->]; [|by eexists].
    intros v' Hv'. apply Hkeys. by right. }
  destruct l as [|a [|b l]]; [by eexists..|]. rewrite Hkeyed. by eexists.
Qed.

Lemma row_map_lanes_nonzero : @lanes_nonzero row_map.
Proof. intros p. simpl. lia. Qed.

Lemma latticeStartAndRange_spec_witness :
  ∃ start range,
    @latticeStartAndRange row_map yaw0_math (line_router 10) elements_begin sort_by_key
      [car 7 20 2; car 8 30 2; car 9 120 3] = Ok (start, range) ∧
    @start_and_range_spec row_map yaw0_math (line_router 10) elements_begin
      [car 7 20 2; car 8 30 2; car 9 120 3] start range.
Proof.
  apply (proj2 (@latticeStartAndRange_spec row_map yaw0_math (line_router 10)
                  elements_begin sort_by_key [car 7 20 2; car 8 30 2; car 9 120 3]
                  sort_by_key_spec)
           sort_by_key_total elements_begin_spec row_map_lanes_nonzero
           {[0; 2]}%N [0; 1; 2]%N).
  - intros road. split.
    + intros Hroad. set_unfold in Hroad. destruct Hroad as [->| ->].
      * exists (car 7 20 2). by vm_compute.
      * exists (car 9 120 3). by vm_compute.
    + intros (v & Hv%kept_elem & <-). rewrite !elem_of_cons in Hv.
      destruct Hv as [->|[->|[->|?%elem_of_nil]]]; [..|done].
      * replace (GetRoadId _) with 0%N by (by vm_compute). set_solver.
      * replace (GetRoadId _) with 0%N by (by vm_compute). set_solver.
      * replace (GetRoadId _) with 2%N by (by vm_compute). set_solver.
  - reflexivity.
Defined.

Example latticeStartAndRange_three_cars :
  @latticeStartAndRange row_map yaw0_math (line_router 10) elements_begin sort_by_key
    [car 7 20 2; car 8 30 2; car 9 120 3]
  = Ok ({| GetId := 18; GetRoadId := 0; GetLaneId := -1; GetDistance := lit 18 |},
        lit 105).
Proof. vm_compute. reflexivity. Qed.

Lemma constructor_resolution_witness :
  @newTrafficLattice row_map yaw0_math (line_router 10) elements_begin sort_by_key
    (λ _ _ _, Ok (straight_nodes 10)) (λ _, straight_closestNode)
    [car 7 20.5 0.25] = Throw RangeTooSmall.
Proof.
  eapply (@constructor_resolution row_map yaw0_math (line_router 10) elements_begin
            sort_by_key (λ _ _ _, Ok (straight_nodes 10))
            (λ _, straight_closestNode) (λ _, straight_closestNode)
            [car 7 20.5 0.25] []).
  - reflexivity.
  - vm_compute. discriminate.
Defined.

(** * Further properties of the code *)

(** ** Reference points and road distance *)

Section WaypointFacts.
Context `{map_ : CarlaMap} `{cmath : CMath}.
Open Scope Qc_scope.


(** X2. For a waypoint whose offset lies on its road, between 0 and the
    length of the road, and whose lane id is not 0, the distance to the
    start of the road lies on the road as well. *)
Theorem waypointToRoadStartDistance_on_road (waypoint : CarlaWaypoint) :
  GetLaneId waypoint ≠ 0%Z →
  0 ≤ GetDistance waypoint →
  GetDistance waypoint ≤ GetLength (GetRoadId waypoint) →
  ∃ d, waypointToRoadStartDistance waypoint = Ok d ∧
       0 ≤ d ∧ d ≤ GetLength (GetRoadId waypoint).
Proof.
  intros Hlane Hlow Hhigh. unfold waypointToRoadStartDistance.
  rewrite bool_decide_eq_false_2 by done. case_bool_decide.
  - eexists. split; [done|]. split.
    + by apply Qcle_minus_iff in Hhigh.
    + apply Qcle_minus_iff.
      by replace (GetLength (GetRoadId waypoint)
                  + - (GetLength (GetRoadId waypoint) - GetDistance waypoint))
        with (GetDistance waypoint) by ring.
  - by eexists.
Qed.

End WaypointFacts.

(** ** Hops along a chained list *)

Lemma chained_hops (step : N → option N) (l : list N) (i k : nat) (a b : N) :
  chained (λ a b, step a = Some b) l →
  l !! i = Some a → l !! (i + k) = Some b → hops step k a = Some b.
Proof.
  intros Hl Ha. revert b. induction k as [|k IH]; intros b Hb.
  - rewrite Nat.add_0_r in Hb. simpl. congruence.
  - replace (i + S k) with (S (i + k)) in Hb by lia.
    destruct (lookup_lt_is_Some_2 l (i + k)) as [c Hc].
    { apply lookup_lt_Some in Hb. lia. }
    simpl. rewrite (IH c Hc). simpl. by eapply Hl.
Qed.

(** ** More on [sortRoads] *)

Section SortRoadsFacts.
Context `{router_ : Router}.
Variable uset_begin : gset N → option N.

(** The router joins [a] to [b]: it names [b] after [a], or [a] before [b]. *)
Definition joined (a b : N) : Prop :=
  nextRoad a = Some b ∨ prevRoad b = Some a.

(** What [n] rounds make of the seed, for any router: the deque runs
    through the seed, reaches [n] hops to either side or up to where the
    router ends, holds nothing further away, grows by at most two roads a
    round, and the remaining set is what it has not met. *)
Definition spans (roads : gset N) (seed : N) (n : nat) (c : chain) : Prop :=
  remaining_roads c = roads ∖ list_to_set (sorted_roads c) ∧
  seed ∈ sorted_roads c ∧
  chained joined (sorted_roads c) ∧
  length (sorted_roads c) ≤ 1 + 2 * n ∧
  (∃ i, i ≤ n ∧ head (sorted_roads c) = hops prevRoad i seed ∧
        (i < n → hops prevRoad (S i) seed = None)) ∧
  (∃ j, j ≤ n ∧ last (sorted_roads c) = hops nextRoad j seed ∧
        (j < n → hops nextRoad (S j) seed = None)) ∧
  (∀ k r, k ≤ n → hops prevRoad k seed = Some r → r ∈ sorted_roads c) ∧
  (∀ k r, k ≤ n → hops nextRoad k seed = Some r → r ∈ sorted_roads c) ∧
  (∀ r, r ∈ sorted_roads c →
     ∃ k, k ≤ n ∧ (hops nextRoad k seed = Some r ∨ hops prevRoad k seed = Some r)).

Lemma spans_seedChain (roads : gset N) (seed : N) :
  spans roads seed 0 (seedChain roads seed).
Proof.
  unfold spans, seedChain. simpl. split_and!.
  - set_solver.
  - set_solver.
  - by intros [|i] a b.
  - lia.
  - exists 0. split_and!; [done|done|lia].
  - exists 0. split_and!; [done|done|lia].
  - intros k r Hk. replace k with 0 by lia. simpl. intros [= <-]. set_solver.
  - intros k r Hk. replace k with 0 by lia. simpl. intros [= <-]. set_solver.
  - intros r ->%list_elem_of_singleton. exists 0. split; [done|by left].
Qed.

Lemma spans_expandOnce (roads : gset N) (seed : N) (n : nat) (c : chain) :
  spans roads seed n c → spans roads seed (S n) (expandOnce c).
Proof.
  intros (Hrem & Hseed & Hjoined & Hlen & (i & Hi & Hhead & Hstop)
          & (j & Hj & Hlast & Hend) & Hprev & Hnext & Hnear).
  destruct (sorted_roads c) as [|first_road l] eqn:Hc; [by apply elem_of_nil in Hseed|].
  destruct (expandOnce_unfold c first_road l Hc)
    as (last_road & Hlast_road & Hsorted & Hremaining).
  rewrite Hc in Hlast_road, Hsorted. rewrite Hlast_road in Hlast.
  simpl in Hhead.
  assert (Hpstep : hops prevRoad (S i) seed = prevRoad first_road)
    by (simpl; by rewrite <- Hhead).
  assert (Hnstep : hops nextRoad (S j) seed = nextRoad last_road)
    by (simpl; by rewrite <- Hlast).
  unfold spans. rewrite Hsorted, Hremaining, Hrem. split_and!.
  - rewrite !list_to_set_app_L. set_solver.
  - set_solver.
  - assert (chained joined ((first_road :: l) ++ option_list (nextRoad last_road)))
      as Hback.
    { destruct (nextRoad last_road) as [r|] eqn:Hr; simpl.
      - apply (chained_snoc joined (first_road :: l) last_road); [done..|by left].
      - by rewrite app_nil_r. }
    destruct (prevRoad first_road) as [r|] eqn:Hr; simpl; [|done].
    apply chained_cons; [by right|done].
  - rewrite !length_app.
    assert (∀ o : option N, length (option_list o) ≤ 1) as Hopt by (by intros []; simpl; lia).
    pose proof (Hopt (prevRoad first_road)). pose proof (Hopt (nextRoad last_road)). lia.
  - destruct (prevRoad first_road) as [r|] eqn:Hr; simpl.
    + assert (i = n) as ->.
      { destruct (decide (i < n)) as [Hlt|]; [|lia]. by rewrite Hstop in Hpstep. }
      exists (S n). split_and!; [done|done|lia].
    + exists i. split_and!; [lia|done|done].
  - rewrite !last_app, Hlast_road.
    destruct (nextRoad last_road) as [r|] eqn:Hr; simpl.
    + assert (j = n) as ->.
      { destruct (decide (j < n)) as [Hlt|]; [|lia]. by rewrite Hend in Hnstep. }
      exists (S n). split_and!; [done|done|lia].
    + exists j. split_and!; [lia|done|done].
  - intros k r Hk Hr. destruct (decide (k ≤ n)) as [Hle|Hgt].
    { specialize (Hprev k r Hle Hr). set_solver. }
    replace k with (S n) in Hr by lia.
    destruct (decide (i < n)) as [Hlt|].
    { rewrite (hops_None_le prevRoad (S i) (S n)) in Hr; [done|lia|by apply Hstop]. }
    replace n with i in Hr by lia. rewrite Hpstep in Hr. rewrite Hr. set_solver.
  - intros k r Hk Hr. destruct (decide (k ≤ n)) as [Hle|Hgt].
    { specialize (Hnext k r Hle Hr). set_solver. }
    replace k with (S n) in Hr by lia.
    destruct (decide (j < n)) as [Hlt|].
    { rewrite (hops_None_le nextRoad (S j) (S n)) in Hr; [done|lia|by apply Hend]. }
    replace n with j in Hr by lia. rewrite Hnstep in Hr. rewrite Hr. set_solver.
  - intros r [Hr|[Hr|Hr]%elem_of_app]%elem_of_app.
    + destruct (prevRoad first_road) as [r'|] eqn:Hr'; [|by apply elem_of_nil in Hr].
      apply list_elem_of_singleton in Hr as ->.
      exists (S i). split; [lia|]. right. by rewrite Hpstep.
    + destruct (Hnear r Hr) as (k & ? & ?). exists k. split; [lia|done].
    + destruct (nextRoad last_road) as [r'|] eqn:Hr'; [|by apply elem_of_nil in Hr].
      apply list_elem_of_singleton in Hr as ->.
      exists (S j). split; [lia|]. left. by rewrite Hnstep.
Qed.

Lemma spans_iter (roads : gset N) (seed : N) (n : nat) :
  spans roads seed n (Nat.iter n expandOnce (seedChain roads seed)).
Proof.
  induction n as [|n IH]; simpl; [apply spans_seedChain|by apply spans_expandOnce].
Qed.

(** What is behind a chain that [sortRoads] returns. *)
Lemma sortRoads_Ok_inv (roads : gset N) (l : list N) :
  sortRoads uset_begin roads = Ok l →
  ∃ seed k p q,
    uset_begin roads = Some seed ∧ k ≤ 5 ∧
    remaining_roads (Nat.iter k expandOnce (seedChain roads seed)) = ∅ ∧
    sorted_roads (Nat.iter k expandOnce (seedChain roads seed)) = p ++ l ++ q ∧
    (∀ r, r ∈ p → r ∉ roads) ∧ (∀ r, r ∈ q → r ∉ roads).
Proof.
  unfold sortRoads. destruct (uset_begin roads) as [seed|]; [|done]. cbv zeta.
  destruct (expandLoop_rounds 5 (seedChain roads seed)) as (k & Hk & -> & _); [lia|].
  case_decide as Hrem; [done|]. intros [= <-].
  set (l0 := sorted_roads (Nat.iter k expandOnce (seedChain roads seed))) in *.
  destruct (pop_front_outside_split uset_begin roads l0) as (p & Hl0 & Hp & _).
  destruct (pop_back_outside_split uset_begin roads (pop_front_outside roads l0))
    as (q & Hl1 & Hq & _).
  exists seed, k, p, q. split_and!; [done|lia| |by rewrite <- Hl1|done..].
  destruct (decide (remaining_roads (Nat.iter k expandOnce (seedChain roads seed)) = ∅));
    [done|]. by destruct Hrem.
Qed.

Lemma remaining_empty_elem (roads : gset N) (l : list N) (r : N) :
  ∅ = roads ∖ list_to_set l → r ∈ roads → r ∈ l.
Proof.
  intros Hempty Hr. destruct (decide (r ∈ l)) as [|Hout]; [done|].
  assert (r ∈ roads ∖ list_to_set l) as Hin by set_solver.
  rewrite <- Hempty in Hin. set_solver.
Qed.

(** X4. For any router, [sortRoads] returns a chain exactly when the set
    is not empty and each of its roads is at most five hops from the seed,
    forward along [nextRoad] or backward along [prevRoad]. *)
Theorem sortRoads_returns_iff (roads : gset N) :
  (∃ l, sortRoads uset_begin roads = Ok l) ↔
  ∃ seed, uset_begin roads = Some seed ∧ within_reach 5 roads seed.
Proof.
  split.
  - intros [l (seed & k & p & q & Hseed & Hk & Hempty & _)%sortRoads_Ok_inv].
    exists seed. split; [done|]. intros r Hr.
    destruct (spans_iter roads seed k) as (Hrem & _ & _ & _ & _ & _ & _ & _ & Hnear).
    destruct (Hnear r) as (k' & ? & ?); [|exists k'; split; [lia|done]].
    rewrite Hempty in Hrem. by apply (remaining_empty_elem roads).
  - intros (seed & Hseed & Hreach).
    destruct (spans_iter roads seed 5) as (Hrem & _ & _ & _ & _ & _ & Hprev & Hnext & _).
    assert (remaining_roads (Nat.iter 5 expandOnce (seedChain roads seed)) = ∅) as Hempty.
    { rewrite Hrem. apply elem_of_equiv_empty_L. intros r [Hr Hout]%elem_of_difference.
      apply Hout, elem_of_list_to_set.
      destruct (Hreach r Hr) as (k & Hk & [Hk'|Hk']); eauto. }
    apply expandLoop_remaining in Hempty.
    unfold sortRoads. rewrite Hseed. cbv zeta.
    rewrite decide_False by (by intros []). by eexists.
Qed.

(** X5. For any router, a chain that [sortRoads] returns holds every road
    of the input, is not empty, and starts and ends on roads of the
    input. *)
Theorem sortRoads_holds_input (roads : gset N) (l : list N) :
  begin_spec uset_begin →
  sortRoads uset_begin roads = Ok l →
  (∀ r, r ∈ roads → r ∈ l) ∧
  ∃ a b, head l = Some a ∧ last l = Some b ∧ a ∈ roads ∧ b ∈ roads.
Proof.
  intros Hbegin Hsort. split; [|by apply (sortRoads_Ok_ends uset_begin)].
  apply sortRoads_Ok_inv in Hsort as (seed & k & p & q & _ & _ & Hempty & Hsorted & Hp & Hq).
  destruct (spans_iter roads seed k) as (Hrem & _).
  rewrite Hempty, Hsorted in Hrem. intros r Hr.
  assert (r ∈ p ++ l ++ q) as Hin by (by apply (remaining_empty_elem roads)).
  set_solver.
Qed.

(** X6. Five rounds add at most two roads each to the seed, so a chain
    that [sortRoads] returns has at most eleven roads, and a set of more
    than eleven roads is never sorted. *)
Theorem sortRoads_at_most_eleven (roads : gset N) (l : list N) :
  sortRoads uset_begin roads = Ok l → length l ≤ 11 ∧ size roads ≤ 11.
Proof.
  intros Hsort. pose proof Hsort as Hinv.
  apply sortRoads_Ok_inv in Hinv as (seed & k & p & q & _ & Hk & Hempty & Hsorted & Hp & Hq).
  destruct (spans_iter roads seed k) as (Hrem & _ & _ & Hlen & _).
  rewrite Hsorted, !length_app in Hlen.
  assert (length l ≤ 11) as Hl by lia. split; [done|].
  assert (elements roads ⊆+ l) as Hsub.
  { apply NoDup_submseteq; [apply NoDup_elements|].
    intros r Hr%elem_of_elements.
    rewrite Hempty, Hsorted in Hrem.
    assert (r ∈ p ++ l ++ q) as Hin by (by apply (remaining_empty_elem roads)).
    set_solver. }
  apply submseteq_length in Hsub. unfold size, set_size. simpl. lia.
Qed.

(** X7. For any router, in a chain that [sortRoads] returns every road is
    joined to the next one by the router, as its successor or with it as
    predecessor, and every road is at most five hops from the seed. *)
Theorem sortRoads_joined (roads : gset N) (l : list N) :
  sortRoads uset_begin roads = Ok l →
  chained joined l ∧
  ∃ seed, uset_begin roads = Some seed ∧
    ∀ r, r ∈ l →
      ∃ k, k ≤ 5 ∧ (hops nextRoad k seed = Some r ∨ hops prevRoad k seed = Some r).
Proof.
  intros (seed & k & p & q & Hseed & Hk & _ & Hsorted & _)%sortRoads_Ok_inv.
  destruct (spans_iter roads seed k) as (_ & _ & Hjoined & _ & _ & _ & _ & _ & Hnear).
  rewrite Hsorted in Hjoined, Hnear. split.
  - by apply chained_app_inv in Hjoined as [_ [? _]%chained_app_inv].
  - exists seed. split; [done|]. intros r Hr.
    destruct (Hnear r) as (k' & ? & ?); [set_solver|]. exists k'. split; [lia|done].
Qed.

Lemma sortRoads_singleton (r : N) :
  begin_spec uset_begin →
  prevRoad r ≠ Some r → nextRoad r ≠ Some r →
  sortRoads uset_begin {[r]} = Ok [r].
Proof.
  intros Hbegin Hprev Hnext. unfold sortRoads. specialize (Hbegin {[r]}).
  destruct (uset_begin {[r]}) as [seed|]; [|set_solver].
  apply elem_of_singleton in Hbegin as ->. cbv zeta.
  assert (expandLoop 5 (seedChain {[r]} r) = expandOnce (seedChain {[r]} r)) as ->.
  { change (expandLoop 5 ?c) with
      (if decide (remaining_roads (expandOnce c) = ∅) then expandOnce c
       else expandLoop 4 (expandOnce c)).
    rewrite decide_True; [done|].
    apply expandOnce_remaining_empty. simpl. set_solver. }
  rewrite decide_False.
  2: { intros []. apply expandOnce_remaining_empty. simpl. set_solver. }
  destruct (expandOnce_unfold (seedChain {[r]} r) r [] eq_refl)
    as (last_road & [= <-] & -> & _). simpl. f_equal.
  destruct (prevRoad r) as [p|] eqn:Hp, (nextRoad r) as [q|] eqn:Hq; simpl;
    unfold pop_back_outside; simpl;
    repeat (first [ rewrite decide_True by set_solver
                  | rewrite decide_False by set_solver ]; simpl);
    try done.
Qed.

(** X8. A set of one road that the router neither precedes nor follows by
    itself is returned as that road alone; what the one round adds at
    either end is trimmed off again. *)
Theorem sortRoads_single_road (r : N) :
  begin_spec uset_begin →
  prevRoad r ≠ Some r → nextRoad r ≠ Some r →
  sortRoads uset_begin {[r]} = Ok [r].
Proof. apply sortRoads_singleton. Qed.

End SortRoadsFacts.

(** ** More on the walk and on marking *)

Lemma collectNodes_head_node_last (fuel : nat) (store : gmap N Node)
  (head_node n : N) (nodes : list N) (i : nat) :
  collectNodes fuel store head_node n = Ok nodes →
  nodes !! i = Some head_node → i = pred (length nodes).
Proof.
  revert n nodes i. induction fuel as [|fuel IH]; intros n nodes i; simpl.
  - case_decide; [|done]. intros [= <-] Hi. apply lookup_lt_Some in Hi. simpl in *. lia.
  - case_decide as Hn.
    { intros [= <-] Hi. apply lookup_lt_Some in Hi. simpl in *. lia. }
    destruct (front_lock store n) as [m|]; [|done].
    destruct (collectNodes fuel store head_node m) as [nodes'|] eqn:Hwalk; [|done].
    intros [= <-]. destruct i as [|i]; simpl; [by intros [= ->]|].
    intros Hi. pose proof (lookup_lt_Some _ _ _ Hi). rewrite (IH _ _ _ Hwalk Hi). lia.
Qed.

(** The walk meets no node twice. *)
Lemma collectNodes_NoDup (fuel : nat) (store : gmap N Node)
  (head_node n : N) (nodes : list N) :
  collectNodes fuel store head_node n = Ok nodes → NoDup nodes.
Proof.
  intros Hwalk. destruct (collectNodes_Ok _ _ _ _ _ Hwalk) as (_ & Hlast & Hstep).
  rewrite last_lookup in Hlast.
  assert (∀ i j x, i < j → nodes !! i = Some x → nodes !! j = Some x → False) as Hlt.
  { intros i j x Hij Hi Hj. pose proof (lookup_lt_Some _ _ _ Hj) as Hlen.
    assert (hops (front_lock store) (pred (length nodes) - j) x = Some head_node) as Hend.
    { apply (chained_hops _ nodes j); [done..|].
      by replace (j + (pred (length nodes) - j)) with (pred (length nodes)) by lia. }
    destruct (lookup_lt_is_Some_2 nodes (i + (pred (length nodes) - j))) as [y Hy]; [lia|].
    pose proof (chained_hops (front_lock store) nodes i _ x y Hstep Hi Hy) as Hy'.
    assert (y = head_node) as -> by congruence.
    apply (collectNodes_head_node_last _ _ _ _ _ _ Hwalk) in Hy. lia. }
  apply NoDup_alt. intros i j x Hi Hj.
  destruct (Nat.lt_trichotomy i j) as [?|[?|?]]; [|done|]; exfalso; eauto.
Qed.

(** The marking loop returns false only at a node that was taken before
    the loop began, if the nodes are pairwise distinct. *)
Lemma occupyNodes_false (id : N) (nodes : list N) (store store' : gmap N Node) :
  NoDup nodes →
  occupyNodes id nodes store = (store', Ok false) →
  ∃ n node, n ∈ nodes ∧ store !! n = Some node ∧ vehicle node ≠ None.
Proof.
  revert store. induction nodes as [|a nodes IH]; intros store; simpl; [done|].
  intros [Ha Hnodup]%NoDup_cons.
  destruct (store !! a) as [node|] eqn:Hnode; [|done].
  destruct (vehicle node) as [id'|] eqn:Hvehicle.
  - intros _. exists a, node. split_and!; [by left|done|congruence].
  - intros (n & node' & Hn & Hnode' & ?)%(IH _ Hnodup).
    rewrite lookup_alter_ne in Hnode' by (by intros ->).
    exists n, node'. split_and!; [by right|done..].
Qed.

(** On nodes that are all alive the marking loop returns true or false. *)
Lemma occupyNodes_alive (id : N) (nodes : list N) (store store' : gmap N Node)
  (r : result bool) :
  (∀ n, n ∈ nodes → is_Some (store !! n)) →
  occupyNodes id nodes store = (store', r) →
  r = Ok true ∨ r = Ok false.
Proof.
  revert store. induction nodes as [|a nodes IH]; intros store Halive; simpl.
  - intros [= <- <-]. by left.
  - destruct (Halive a) as [node Ha]; [by left|]. rewrite Ha.
    destruct (vehicle node); [intros [= <- <-]; by right|].
    apply IH. intros n Hn. rewrite lookup_alter.
    destruct (Halive n) as [node' Hn']; [by right|].
    case_decide; [by rewrite Ha|by rewrite Hn'].
Qed.

Section RegistrationFacts.
Context `{map_ : CarlaMap} `{cmath : CMath}.
Variable closestNode : CarlaWaypoint → double → option N.

(** A node after the body of the loop: as it was, or a free node now
    marked for the vehicle. *)
Lemma registerVehicle_node (L L' : TrafficLattice) (v : VehicleTuple) (r : result bool)
  (n : N) :
  registerVehicle closestNode L v = (L', r) →
  nodes_ L' !! n = nodes_ L !! n ∨
  ∃ node, nodes_ L !! n = Some node ∧ vehicle node = None ∧
          nodes_ L' !! n = Some (set_vehicle v.1.1 node).
Proof.
  intros (_ & (marked & -> & Hmarked) & _)%registerVehicle_state.
  rewrite lookup_mark_all. case_decide as Hn; [|by left].
  destruct (Hmarked n Hn) as (node & Hnode & Hfree).
  right. exists node. by rewrite Hnode.
Qed.

Lemma registerLoop_node (L L' : TrafficLattice) (vs : list VehicleTuple) (r : result bool)
  (n : N) :
  registerLoop closestNode L vs = (L', r) →
  nodes_ L' !! n = nodes_ L !! n ∨
  ∃ node v, v ∈ vs ∧ nodes_ L !! n = Some node ∧ vehicle node = None ∧
            nodes_ L' !! n = Some (set_vehicle v.1.1 node).
Proof.
  revert L. induction vs as [|v vs IH]; intros L; simpl.
  - intros [= <- <-]. by left.
  - destruct (registerVehicle closestNode L v) as [L1 r1] eqn:Hv.
    pose proof (registerVehicle_node L L1 v r1 n Hv) as Hstep. intros Hrun.
    assert (registerLoop closestNode L1 vs = (L', r) ∨ (L1, r1) = (L', r)) as [Hloop|[= <- <-]].
    { destruct r1 as [[]|]; auto. }
    + destruct (IH L1 Hloop) as [Hsame|(node & v' & Hv' & Hnode & Hfree & Hnew)].
      * destruct Hstep as [Hstep|(node & Hnode & Hfree & Hnew)].
        -- left. congruence.
        -- right. exists node, v. split_and!; [by left|done|done|congruence].
      * destruct Hstep as [Hstep|(node0 & Hnode0 & Hfree0 & Hnew0)].
        -- right. exists node, v'. split_and!; [by right|congruence|done|done].
        -- rewrite Hnew0 in Hnode. by simplify_eq/=.
    + destruct Hstep as [Hstep|(node & Hnode & Hfree & Hnew)]; [by left|].
      right. exists node, v. split_and!; [by left|done..].
Qed.

(** X9. Whatever the outcome, [registerVehicles] keeps the resolution,
    and every node is either left as it was or was free and now carries
    the id of a vehicle of the list, with its front link unchanged: no
    node is added, removed, relinked, freed or handed from one vehicle to
    another. *)
Theorem registerVehicles_touches_free_nodes_only (L L' : TrafficLattice)
  (vehicles : list VehicleTuple) (r : result bool) :
  registerVehicles closestNode L vehicles = (L', r) →
  longitudinal_resolution_ L' = longitudinal_resolution_ L ∧
  ∀ n, nodes_ L' !! n = nodes_ L !! n ∨
       ∃ node v, v ∈ vehicles ∧ nodes_ L !! n = Some node ∧ vehicle node = None ∧
                 nodes_ L' !! n = Some {| front := front node; vehicle := Some v.1.1 |}.
Proof.
  unfold registerVehicles. intros Hloop. split.
  - by apply registerLoop_links in Hloop as [_ ?].
  - intros n. apply (registerLoop_node _ _ _ _ n) in Hloop. done.
Qed.

(** X10. The pass clears the table but not the marks on the nodes, so a
    second pass over the same vehicles on the lattice that a first pass
    has filled stops at its first vehicle and returns false, with the
    nodes as they were and an empty table. *)
Theorem registerVehicles_twice (L L1 : TrafficLattice) (v : VehicleTuple)
  (vehicles : list VehicleTuple) :
  registerVehicles closestNode L (v :: vehicles) = (L1, Ok true) →
  registerVehicles closestNode L1 (v :: vehicles)
  = ({| nodes_ := nodes_ L1;
        longitudinal_resolution_ := longitudinal_resolution_ L1;
        vehicle_to_nodes_table_ := ∅ |}, Ok false).
Proof.
  unfold registerVehicles.
  intros (La & Hv & Hloop)%registerLoop_cons_true.
  pose proof (registerLoop_links _ _ _ _ _ Hloop) as [Hlinks Hres].
  pose proof (registerVehicle_links _ _ _ _ _ Hv) as [Hlinks' Hres']. cbn [nodes_ longitudinal_resolution_ vehicle_to_nodes_table_] in *.
  apply registerVehicle_true in Hv as (nodes & Hnodes & _ & Hfree & ->). cbn [nodes_ longitudinal_resolution_ vehicle_to_nodes_table_] in *.
  set (L2 := {| nodes_ := nodes_ L1;
                longitudinal_resolution_ := longitudinal_resolution_ L1;
                vehicle_to_nodes_table_ := ∅ |}).
  assert (vehicleNodes closestNode L2 v = Ok nodes) as Hnodes2.
  { rewrite <- Hnodes. apply vehicleNodes_links; simpl; congruence. }
  destruct (vehicleNodes_Ok _ _ _ _ Hnodes) as (rear_node & _ & _ & _ & Hhead & _).
  destruct nodes as [|n nodes]; [done|].
  destruct (Hfree n) as (node & Hnode & Hnone); [by left|].
  assert (nodes_ L1 !! n = Some (set_vehicle v.1.1 node)) as Hmarked.
  { destruct (registerLoop_node _ _ _ _ n Hloop) as [->|(node' & _ & _ & Hnode' & Hfree' & _)];
      cbn [nodes_ longitudinal_resolution_ vehicle_to_nodes_table_] in *.
    - rewrite lookup_mark_all, decide_True by left. by rewrite Hnode.
    - rewrite lookup_mark_all, decide_True, Hnode in Hnode' by left.
      by simplify_eq/=. }
  assert (registerVehicle closestNode L2 v = (L2, Ok false)) as Hv2.
  { unfold registerVehicle. rewrite Hnodes2. simpl. by rewrite Hmarked. }
  fold L2. cbn [registerLoop]. by rewrite Hv2.
Qed.

Lemma vehicleNodes_NoDup (L : TrafficLattice) (v : VehicleTuple) (nodes : list N) :
  vehicleNodes closestNode L v = Ok nodes → NoDup nodes.
Proof.
  destruct v as [[id transform] bounding_box]. unfold vehicleNodes.
  destruct (closestNode _ _) as [head_node|]; [|done].
  destruct (closestNode _ _) as [rear_node|]; [|done].
  apply collectNodes_NoDup.
Qed.

Lemma links_is_Some (store store' : gmap N Node) (n : N) :
  links store = links store' → is_Some (store !! n) → is_Some (store' !! n).
Proof.
  unfold links. intros Hlinks Hn.
  apply (fmap_is_Some front). rewrite <- lookup_fmap, <- Hlinks, lookup_fmap.
  by apply fmap_is_Some.
Qed.

(** X11. A pass returns false only for a collision: the vehicle at which
    it stops has a node under it that was taken when its turn came, by a
    vehicle earlier in the list or by a mark that was on the lattice
    before the pass. *)
Theorem registerVehicles_false_is_collision (L L' : TrafficLattice)
  (vehicles : list VehicleTuple) :
  registerVehicles closestNode L vehicles = (L', Ok false) →
  ∃ vs1 v vs2 L1 nodes n id,
    vehicles = vs1 ++ v :: vs2 ∧
    registerVehicles closestNode L vs1 = (L1, Ok true) ∧
    vehicleNodes closestNode L v = Ok nodes ∧ n ∈ nodes ∧
    vehicle <$> nodes_ L1 !! n = Some (Some id) ∧
    (vehicle <$> nodes_ L !! n = Some (Some id) ∨ ∃ v', v' ∈ vs1 ∧ v'.1.1 = id).
Proof.
  unfold registerVehicles. intros Hloop.
  destruct (registerLoop_stops closestNode _ _ _ _ Hloop)
    as (vs1 & v & vs2 & L1 & -> & Hvs1 & Hv); [done|].
  pose proof (registerLoop_links _ _ _ _ _ Hvs1) as [Hlinks Hres].
  cbn [nodes_ longitudinal_resolution_] in Hlinks, Hres.
  unfold registerVehicle in Hv.
  destruct (vehicleNodes closestNode L1 v) as [nodes|] eqn:Hnodes; [|by simplify_eq].
  destruct (occupyNodes v.1.1 nodes (nodes_ L1)) as [store r] eqn:Hocc.
  assert (r = Ok false) as -> by (destruct r as [[]|]; by simplify_eq).
  destruct (occupyNodes_false _ _ _ _ (vehicleNodes_NoDup _ _ _ Hnodes) Hocc)
    as (n & node & Hn & Hnode & Htaken).
  destruct (vehicle node) as [id|] eqn:Hid; [|done].
  exists vs1, v, vs2, L1, nodes, n, id. split_and!; [done..| |done| |].
  - rewrite <- Hnodes. by apply vehicleNodes_links.
  - by rewrite Hnode; simpl; rewrite Hid.
  - destruct (registerLoop_node _ _ _ _ n Hvs1)
      as [Hsame|(node0 & v' & Hv' & _ & _ & Hnew)];
      cbn [nodes_] in *.
    + left. by rewrite <- Hsame, Hnode; simpl; rewrite Hid.
    + right. exists v'. split; [done|]. rewrite Hnode in Hnew.
      injection Hnew as ->. simpl in Hid. congruence.
Qed.

(** X12. Every collision is found: when the vehicles before it went
    through and a vehicle has, among the nodes under it, all of them
    alive, one that is taken by then, the pass returns false. *)
Theorem registerVehicles_collision_is_false (L L1 : TrafficLattice)
  (vs1 vs2 : list VehicleTuple) (v : VehicleTuple) (nodes : list N) (n : N) (id : N) :
  registerVehicles closestNode L vs1 = (L1, Ok true) →
  vehicleNodes closestNode L v = Ok nodes →
  (∀ m, m ∈ nodes → is_Some (nodes_ L !! m)) →
  n ∈ nodes →
  vehicle <$> nodes_ L1 !! n = Some (Some id) →
  ∃ L', registerVehicles closestNode L (vs1 ++ v :: vs2) = (L', Ok false).
Proof.
  unfold registerVehicles. intros Hvs1 Hnodes Halive Hn Htaken.
  rewrite (registerLoop_app_true _ _ _ _ _ Hvs1).
  pose proof (registerLoop_links _ _ _ _ _ Hvs1) as [Hlinks Hres].
  cbn [nodes_ longitudinal_resolution_] in Hlinks, Hres.
  rewrite <- (vehicleNodes_links closestNode L1 L) in Hnodes by done.
  cbn [registerLoop]. unfold registerVehicle. rewrite Hnodes.
  destruct (occupyNodes v.1.1 nodes (nodes_ L1)) as [store r] eqn:Hocc.
  destruct (occupyNodes_alive _ _ _ _ _ (λ m Hm, links_is_Some _ _ m (eq_sym Hlinks)
              (Halive m Hm)) Hocc) as [->| ->]; [|by eexists].
  apply occupyNodes_true in Hocc as (_ & Hfree & _).
  destruct (Hfree n Hn) as (node & Hnode & Hnone).
  rewrite Hnode in Htaken. simpl in Htaken. congruence.
Qed.

(** X13. A vehicle whose head or rear waypoint has no node of the
    lattice close to it makes the pass throw the nodes-not-found error,
    once the vehicles before it went through; what they left stays. *)
Theorem registerVehicles_off_lattice (L L1 : TrafficLattice)
  (vs1 vs2 : list VehicleTuple) (v : VehicleTuple) :
  registerVehicles closestNode L vs1 = (L1, Ok true) →
  closestNode (vehicleHeadWaypoint v.1.2 v.2)
    (longitudinal_resolution_ L / lit 2.0)%Qc = None ∨
  closestNode (vehicleRearWaypoint v.1.2 v.2)
    (longitudinal_resolution_ L / lit 2.0)%Qc = None →
  registerVehicles closestNode L (vs1 ++ v :: vs2) = (L1, Throw NodesNotFound).
Proof.
  unfold registerVehicles. intros Hvs1 Hnone.
  rewrite (registerLoop_app_true _ _ _ _ _ Hvs1).
  apply registerLoop_links in Hvs1 as [_ Hres]. cbn [longitudinal_resolution_] in Hres.
  assert (vehicleNodes closestNode L1 v = Throw NodesNotFound) as Hnodes.
  { destruct v as [[id transform] bounding_box]. unfold vehicleNodes.
    rewrite Hres. simpl in Hnone. destruct Hnone as [-> | ->]; [done|].
    by destruct (closestNode _ _). }
  cbn [registerLoop]. unfold registerVehicle. by rewrite Hnodes.
Qed.

(** X14. In a pass that goes through, the sequence recorded for a
    vehicle is never empty and holds no node twice. *)
Theorem registerVehicles_sequences (L L' : TrafficLattice)
  (vehicles : list VehicleTuple) (id : N) (nodes : list N) :
  registerVehicles closestNode L vehicles = (L', Ok true) →
  vehicle_to_nodes_table_ L' !! id = Some nodes →
  nodes ≠ [] ∧ NoDup nodes.
Proof.
  unfold registerVehicles. intros Hloop. revert id nodes.
  revert Hloop.
  apply (registerLoop_true_ind closestNode
           (λ L1, ∀ id nodes, vehicle_to_nodes_table_ L1 !! id = Some nodes →
                              nodes ≠ [] ∧ NoDup nodes)).
  - intros L1 L2 v _ Htable (nodes & Hnodes & Hnodup & _ & ->)%registerVehicle_true.
    intros id nodes'. cbn [vehicle_to_nodes_table_]. rewrite lookup_insert.
    case_decide; [|apply Htable]. intros [= <-]. split; [|done].
    apply vehicleNodes_Ok in Hnodes as (? & ? & _ & _ & Hhead & _). by intros ->.
  - intros id nodes. cbn [vehicle_to_nodes_table_]. by rewrite lookup_empty.
Qed.

Lemma registerLoop_marks_in_table (vs : list VehicleTuple) (L L' : TrafficLattice) :
  NoDup (vs.*1).*1 →
  (∀ v, v ∈ vs → vehicle_to_nodes_table_ L !! v.1.1 = None) →
  (∀ n node id, nodes_ L !! n = Some node → vehicle node = Some id →
     ∃ nodes, vehicle_to_nodes_table_ L !! id = Some nodes ∧ n ∈ nodes) →
  registerLoop closestNode L vs = (L', Ok true) →
  ∀ n node id, nodes_ L' !! n = Some node → vehicle node = Some id →
    ∃ nodes, vehicle_to_nodes_table_ L' !! id = Some nodes ∧ n ∈ nodes.
Proof.
  revert L. induction vs as [|v vs IH]; intros L Hnodup Hfresh Hinv.
  - by intros [= <-].
  - rewrite !fmap_cons in Hnodup. apply NoDup_cons in Hnodup as [Hv Hnodup].
    intros (L1 & (nodes & _ & _ & Hfree & ->)%registerVehicle_true & Hloop)%registerLoop_cons_true.
    revert Hloop. apply (IH _ Hnodup); cbn [nodes_ vehicle_to_nodes_table_].
    + intros v' Hv'. rewrite lookup_insert_ne; [apply Hfresh; by right|].
      intros Heq. apply Hv. rewrite Heq. by apply list_elem_of_fmap_2, list_elem_of_fmap_2.
    + intros n node id. rewrite lookup_mark_all. case_decide as Hn.
      * destruct (Hfree n Hn) as (node0 & -> & _). intros [= <-] [= <-].
        exists nodes. by rewrite lookup_insert_eq.
      * intros Hnode Hid. destruct (Hinv n node id Hnode Hid) as (nodes' & Hnodes' & ?).
        exists nodes'. split; [|done]. rewrite lookup_insert_ne; [done|].
        intros <-. rewrite Hfresh in Hnodes'; [done|by left].
Qed.

(** X15. On a lattice that starts with no node taken, after a pass over
    vehicles with pairwise distinct ids that goes through, a node carries
    the id of a vehicle exactly when it is in the sequence recorded for
    that vehicle: the marks on the nodes and the table say the same. *)
Theorem registerVehicles_marks_match_table (L L' : TrafficLattice)
  (vehicles : list VehicleTuple) :
  (∀ n node, nodes_ L !! n = Some node → vehicle node = None) →
  NoDup (vehicles.*1).*1 →
  registerVehicles closestNode L vehicles = (L', Ok true) →
  ∀ n id,
    vehicle <$> nodes_ L' !! n = Some (Some id) ↔
    ∃ nodes, vehicle_to_nodes_table_ L' !! id = Some nodes ∧ n ∈ nodes.
Proof.
  unfold registerVehicles. intros Hfree Hnodup Hloop n id. split.
  - destruct (nodes_ L' !! n) as [node|] eqn:Hnode; [|done]. intros [= Hid].
    apply (registerLoop_marks_in_table _ _ _ Hnodup) with (n := n) (node := node) (id := id)
      in Hloop; cbn [nodes_ vehicle_to_nodes_table_]; [done| | |done..].
    + intros v _. apply lookup_empty.
    + intros n' node' id' Hnode' Hid'. rewrite (Hfree _ _ Hnode') in Hid'. done.
  - intros (nodes & Hnodes & Hn).
    apply registerLoop_table_marked in Hloop.
    + destruct (Hloop id nodes n Hnodes Hn) as (node & -> & Hid). simpl. by rewrite Hid.
    + intros id' nodes' n'. cbn [vehicle_to_nodes_table_]. by rewrite lookup_empty.
Qed.

End RegistrationFacts.

(** ** More on the estimator *)

Section EstimatorFacts.
Context `{map_ : CarlaMap} `{cmath : CMath} `{router_ : Router}.
Variable uset_begin : gset N → option N.
Variable std_sort : (N → result double) → list N → result (list N).

(** X16. Of several tuples with one id, the estimator keeps the last:
    its transform and its bounding box, both of the same tuple. *)
Theorem arrange_last_tuple (vehicles : list VehicleTuple) (id : N) :
  arrangeTransforms vehicles !! id
  = (λ v, v.1.2) <$> last (filter (λ v, v.1.1 = id) vehicles) ∧
  arrangeBoundingBoxes vehicles !! id
  = (λ v, v.2) <$> last (filter (λ v, v.1.1 = id) vehicles).
Proof. split; apply arrange_lookup. Qed.

Lemma arrangeTransforms_elem (vehicles : list VehicleTuple) (id : N)
  (transform : CarlaTransform) :
  arrangeTransforms vehicles !! id = Some transform →
  ∃ v, v ∈ vehicles ∧ v.1.1 = id ∧ v.1.2 = transform.
Proof.
  unfold arrangeTransforms. rewrite (arrange_lookup (λ v, v.1.2)).
  destruct (last _) as [v|] eqn:Hlast; [|done]. intros [= <-].
  apply last_Some in Hlast as [l Hl].
  assert (v ∈ filter (λ v, v.1.1 = id) vehicles) as [? ?]%list_elem_of_filter.
  { rewrite Hl. apply elem_of_app. right. by left. }
  by exists v.
Qed.

Lemma arrangeByRoads_NoDup_foldl (l : list (N * CarlaTransform)) (table : gmap N (list N)) :
  NoDup l.*1 →
  (∀ road, NoDup (table !!! road)) →
  (∀ road v, v ∈ table !!! road → v ∉ l.*1) →
  ∀ road,
    NoDup (foldl (λ table vehicle,
                    let road := GetRoadId (vehicleWaypoint vehicle.2) in
                    <[road := table !!! road ++ [vehicle.1]]> table) table l !!! road).
Proof.
  revert table. induction l as [|[v transform] l IH]; intros table; simpl; [done|].
  intros [Hv Hnodup]%NoDup_cons Htable Hfresh. apply IH; [done| |].
  - intros road. destruct (decide (GetRoadId (vehicleWaypoint transform) = road)) as [<-|Hne].
    + rewrite lookup_total_insert_eq. apply NoDup_app. split_and!; [done| |apply NoDup_singleton].
      intros v' Hv' ->%list_elem_of_singleton. apply (Hfresh _ _ Hv'). by left.
    + by rewrite lookup_total_insert_ne.
  - intros road v'.
    destruct (decide (GetRoadId (vehicleWaypoint transform) = road)) as [<-|Hne].
    + rewrite lookup_total_insert_eq.
      intros [Hv'| ->%list_elem_of_singleton]%elem_of_app; [|done].
      intros ?. apply (Hfresh _ _ Hv'). by right.
    + rewrite lookup_total_insert_ne by done. intros Hv' ?.
      apply (Hfresh _ _ Hv'). by right.
Qed.

(** X17. Sorting the vehicles into roads is a partition: the vector of a
    road holds the vehicles whose centre is on it, each once, and a road
    has a vector exactly when some vehicle has its centre on it. *)
Theorem arrangeByRoads_partition (vehicle_transforms : gmap N CarlaTransform) (road : N) :
  NoDup (arrangeByRoads vehicle_transforms !!! road) ∧
  (∀ v, v ∈ arrangeByRoads vehicle_transforms !!! road ↔
        ∃ transform, vehicle_transforms !! v = Some transform ∧
                     GetRoadId (vehicleWaypoint transform) = road) ∧
  (road ∈ dom (arrangeByRoads vehicle_transforms) ↔
   ∃ v transform, vehicle_transforms !! v = Some transform ∧
                  GetRoadId (vehicleWaypoint transform) = road).
Proof.
  split_and!.
  - apply arrangeByRoads_NoDup_foldl.
    + apply NoDup_fst_map_to_list.
    + intros road'. rewrite lookup_total_empty. apply NoDup_nil_2.
    + intros road' v. rewrite lookup_total_empty. by intros ?%elem_of_nil.
  - intros v. apply arrangeByRoads_elem.
  - apply arrangeByRoads_dom.
Qed.

(** X18. Sorting by distance moves no vehicle to another road and loses
    none: the sorted table has the roads of the table it was given, and
    under each road the same vehicles, as often. *)
Theorem sortByDistance_keeps (vehicle_transforms : gmap N CarlaTransform)
  (table table' : gmap N (list N)) :
  std_sort_spec std_sort →
  sortByDistance std_sort vehicle_transforms table = Ok table' →
  dom table' = dom table ∧ ∀ road, table' !!! road ≡ₚ table !!! road.
Proof.
  intros Hspec Hsort. pose proof (sortByDistance_dom _ _ _ _ Hsort) as Hdom.
  split; [done|]. intros road.
  destruct (table' !! road) as [sorted|] eqn:Hroad.
  - rewrite (lookup_total_correct _ _ _ Hroad).
    by apply (Hspec _ _ _ (sortByDistance_Ok _ _ _ _ _ _ Hsort Hroad)).
  - rewrite !lookup_total_alt, Hroad.
    apply not_elem_of_dom in Hroad. rewrite Hdom in Hroad.
    apply not_elem_of_dom in Hroad. by rewrite Hroad.
Qed.

(** X19. With the centre of every vehicle on one road, which the router
    neither precedes nor follows by itself, the chain is that road alone:
    the start is the rear waypoint of a vehicle of the list, and with the
    rear and head waypoints of the end vehicles on that road too, the
    range is what the code adds up from 0: the length of the road, less
    the distance of the rear waypoint, less what is left of the road
    beyond the head waypoint. *)
Theorem latticeStartAndRange_one_road (vehicles : list VehicleTuple)
  (start : CarlaWaypoint) (range : double) (r : N) :
  std_sort_spec std_sort → begin_spec uset_begin →
  (∀ v, v ∈ vehicles → GetRoadId (vehicleWaypoint v.1.2) = r) →
  prevRoad r ≠ Some r → nextRoad r ≠ Some r →
  latticeStartAndRange uset_begin std_sort vehicles = Ok (start, range) →
  ∃ first_vehicle last_vehicle,
    first_vehicle ∈ vehicles ∧ last_vehicle ∈ vehicles ∧
    start = vehicleRearWaypoint first_vehicle.1.2 first_vehicle.2 ∧
    let last_waypoint := vehicleHeadWaypoint last_vehicle.1.2 last_vehicle.2 in
    (GetRoadId start = r → GetRoadId last_waypoint = r →
     ∃ d0 d1, waypointToRoadStartDistance start = Ok d0 ∧
              waypointToRoadStartDistance last_waypoint = Ok d1 ∧
              range = (0 + GetLength r - d0 - (GetLength r - d1))%Qc).
Proof.
  intros Hspec Hbegin Hroad Hprev Hnext Hrun.
  apply (latticeStartAndRange_Ok _ _ _ _ _ Hspec) in Hrun. unfold start_and_range_of in Hrun.
  cbv zeta in Hrun.
  destruct Hrun as (table' & sorted_roads & front_road & back_road & first_id
                    & last_id & Htable & Hsorted & Hfront & Hback & [Hfirst _]
                    & [Hlast _] & Hstart & front_trim & back_trim & Hft & Hbt & ->).
  assert (dom table' = {[r]}) as Hdom.
  { rewrite (sortByDistance_dom _ _ _ _ Htable).
    destruct (sortRoads_Ok_ends _ _ _ Hbegin Hsorted) as (a & _ & _ & _ & Ha & _).
    rewrite (sortByDistance_dom _ _ _ _ Htable) in Ha.
    assert (∀ road, road ∈ dom (arrangeByRoads (arrangeTransforms vehicles)) → road = r)
      as Hall.
    { intros road (v & Hv%kept_elem & <-)%vehicle_roads. by apply Hroad. }
    apply set_eq. intros road. rewrite elem_of_singleton. split; [apply Hall|].
    intros ->. by rewrite <- (Hall a Ha). }
  rewrite Hdom, (sortRoads_singleton _ _ Hbegin Hprev Hnext) in Hsorted.
  injection Hsorted as <-. injection Hfront as <-. injection Hback as <-.
  apply on_road_kept in Hfirst as (first_vehicle & Hfirst & <- & _).
  apply on_road_kept in Hlast as (last_vehicle & Hlast & <- & _).
  destruct (kept_lookup _ _ Hfirst) as [Hft1 Hfb1].
  destruct (kept_lookup _ _ Hlast) as [Hlt1 Hlb1].
  rewrite (lookup_total_correct _ _ _ Hft1), (lookup_total_correct _ _ _ Hfb1) in *.
  rewrite (lookup_total_correct _ _ _ Hlt1), (lookup_total_correct _ _ _ Hlb1) in *.
  exists first_vehicle, last_vehicle.
  split_and!; [by apply kept_elem|by apply kept_elem|done|]. cbv zeta.
  intros Hr Hr'.
  rewrite decide_True in Hft by done. rewrite decide_True in Hbt by done.
  destruct Hft as (d0 & Hd0 & ->), Hbt as (d1 & Hd1 & ->).
  by exists d0, d1.
Qed.

End EstimatorFacts.

(** ** More on the constructors *)

Section ConstructedFacts.
Context `{map_ : CarlaMap} `{cmath : CMath} `{router_ : Router}.
Variable uset_begin : gset N → option N.
Variable std_sort : (N → result double) → list N → result (list N).
Variable extend : CarlaWaypoint → double → double → result (gmap N Node).
Variable closestNode : gmap N Node → CarlaWaypoint → double → option N.

(** X20. When the base lattice comes with no node taken and the vehicles
    have pairwise distinct ids, a lattice that the constructor returns
    was estimated with a range above 1.0, has the links of the base
    lattice, has a sequence of nodes for every vehicle, and marks a node
    with an id exactly when the node is in the sequence of that id. *)
Theorem newTrafficLattice_consistent (vehicles : list VehicleTuple) (L : TrafficLattice) :
  (∀ start range resolution nodes n node,
     extend start range resolution = Ok nodes → nodes !! n = Some node →
     vehicle node = None) →
  NoDup (vehicles.*1).*1 →
  newTrafficLattice uset_begin std_sort extend closestNode vehicles = Ok L →
  ∃ start range nodes,
    latticeStartAndRange uset_begin std_sort vehicles = Ok (start, range) ∧
    (lit 1.0 < range)%Qc ∧
    extend start range (lit 1.0) = Ok nodes ∧
    links (nodes_ L) = links nodes ∧
    (∀ v, v ∈ vehicles → is_Some (vehicle_to_nodes_table_ L !! v.1.1)) ∧
    ∀ n id,
      vehicle <$> nodes_ L !! n = Some (Some id) ↔
      ∃ ns, vehicle_to_nodes_table_ L !! id = Some ns ∧ n ∈ ns.
Proof.
  intros Hfree Hnodup. unfold newTrafficLattice.
  intros ([start range] & Hrun & (L0 & Hbase & Hreg)%bind_Ok)%bind_Ok.
  unfold baseConstructor in Hbase. simpl in Hbase.
  destruct (decide (range ≤ lit 1.0)%Qc) as [|Hrange]; [done|].
  apply bind_Ok in Hbase as (nodes & Hextend & [= <-]).
  cbn [nodes_] in Hreg.
  destruct (registerVehicles (closestNode nodes) _ vehicles) as [L' r] eqn:Hloop.
  assert (r = Ok true ∧ L' = L) as [-> ->] by (destruct r as [[]|]; by simplify_eq).
  clear Hreg. unfold registerVehicles in Hloop. cbn [nodes_ longitudinal_resolution_] in Hloop.
  exists start, range, nodes. split_and!; [done| |done|..].
  - by apply Qcnot_le_lt.
  - by apply registerLoop_links in Hloop as [-> _].
  - by apply (registerLoop_table_all _ _ _ _ Hloop).
  - intros n id. split.
    + destruct (nodes_ L !! n) as [node|] eqn:Hnode; [|done]. intros [= Hid].
      revert Hloop n node id Hnode Hid.
      apply (registerLoop_marks_in_table _ _ _ _ Hnodup); cbn [nodes_ vehicle_to_nodes_table_].
      * intros v _. apply lookup_empty.
      * intros n' node' id' Hnode' Hid'.
        rewrite (Hfree _ _ _ _ _ _ Hextend Hnode') in Hid'. done.
    + intros (ns & Hns & Hn).
      apply registerLoop_table_marked in Hloop.
      * destruct (Hloop id ns n Hns Hn) as (node & -> & Hid). simpl. by rewrite Hid.
      * intros id' nodes' n'. cbn [vehicle_to_nodes_table_]. by rewrite lookup_empty.
Qed.

End ConstructedFacts.

(** ** Worked examples of the further properties *)

Lemma straight_nodes_free (n : nat) (k : N) (node : Node) :
  straight_nodes n !! k = Some node → vehicle node = None.
Proof.
  unfold straight_nodes. intros Hk%elem_of_list_to_map_2.
  by apply list_elem_of_fmap in Hk as (i & [= _ ->] & _).
Qed.

Lemma waypointToRoadStartDistance_on_road_witness :
  ∃ d, @waypointToRoadStartDistance straight_map
         {| GetId := 30; GetRoadId := 1; GetLaneId := 2; GetDistance := lit 30 |} = Ok d ∧
       (0 ≤ d)%Qc ∧ (d ≤ lit 100)%Qc.
Proof.
  apply (@waypointToRoadStartDistance_on_road straight_map
           {| GetId := 30; GetRoadId := 1; GetLaneId := 2; GetDistance := lit 30 |}).
  - done.
  - vm_compute. discriminate.
  - vm_compute. discriminate.
Defined.

Lemma sortRoads_holds_input_witness :
  ∃ l, @sortRoads (line_router 10) elements_begin {[3; 5; 4]}%N = Ok l ∧
       (∀ r, r ∈ ({[3; 5; 4]}%N : gset N) → r ∈ l) ∧
       ∃ a b, head l = Some a ∧ last l = Some b ∧
              a ∈ ({[3; 5; 4]}%N : gset N) ∧ b ∈ ({[3; 5; 4]}%N : gset N).
Proof.
  eexists. split; [reflexivity|].
  apply (@sortRoads_holds_input (line_router 10) elements_begin {[3; 5; 4]}%N).
  - apply elements_begin_spec.
  - reflexivity.
Defined.

Lemma sortRoads_at_most_eleven_witness :
  ∃ l, @sortRoads (line_router 10) elements_begin {[3; 5; 4]}%N = Ok l ∧
       length l ≤ 11 ∧ size ({[3; 5; 4]}%N : gset N) ≤ 11.
Proof.
  eexists. split; [reflexivity|].
  by eapply (@sortRoads_at_most_eleven (line_router 10) elements_begin {[3; 5; 4]}%N).
Defined.

Lemma sortRoads_joined_witness :
  ∃ l, @sortRoads (line_router 10) elements_begin {[3; 5; 4]}%N = Ok l ∧
       chained (@joined (line_router 10)) l ∧
       ∃ seed, elements_begin {[3; 5; 4]}%N = Some seed ∧
         ∀ r, r ∈ l →
           ∃ k, k ≤ 5 ∧ (hops (@nextRoad (line_router 10)) k seed = Some r ∨
                         hops (@prevRoad (line_router 10)) k seed = Some r).
Proof.
  eexists. split; [reflexivity|].
  by eapply (@sortRoads_joined (line_router 10) elements_begin {[3; 5; 4]}%N).
Defined.

Lemma sortRoads_single_road_witness :
  @sortRoads (line_router 10) elements_begin {[3]}%N = Ok [3]%N.
Proof.
  apply (@sortRoads_single_road (line_router 10) elements_begin 3%N).
  - apply elements_begin_spec.
  - vm_compute. discriminate.
  - vm_compute. discriminate.
Defined.

Lemma registerVehicles_touches_free_nodes_only_witness :
  ∃ L' r,
    @registerVehicles straight_map yaw0_math straight_closestNode
      (straight_lattice 10) [car 7 2 1; car 8 3 1] = (L', r) ∧
    longitudinal_resolution_ L' = longitudinal_resolution_ (straight_lattice 10) ∧
    ∀ n, nodes_ L' !! n = nodes_ (straight_lattice 10) !! n ∨
         ∃ node v, v ∈ [car 7 2 1; car 8 3 1] ∧
                   nodes_ (straight_lattice 10) !! n = Some node ∧ vehicle node = None ∧
                   nodes_ L' !! n = Some {| front := front node; vehicle := Some v.1.1 |}.
Proof.
  eexists _, _. split; [reflexivity|].
  by eapply (@registerVehicles_touches_free_nodes_only straight_map yaw0_math
               straight_closestNode (straight_lattice 10) _ [car 7 2 1; car 8 3 1]).
Defined.

Lemma registerVehicles_twice_witness :
  ∃ L1,
    @registerVehicles straight_map yaw0_math straight_closestNode
      (straight_lattice 10) [car 7 2 1; car 8 6 2] = (L1, Ok true) ∧
    @registerVehicles straight_map yaw0_math straight_closestNode
      L1 [car 7 2 1; car 8 6 2]
    = ({| nodes_ := nodes_ L1;
          longitudinal_resolution_ := longitudinal_resolution_ L1;
          vehicle_to_nodes_table_ := ∅ |}, Ok false).
Proof.
  eexists. split; [reflexivity|].
  by eapply (@registerVehicles_twice straight_map yaw0_math straight_closestNode
              (straight_lattice 10)).
Defined.

Lemma registerVehicles_false_is_collision_witness :
  ∃ L',
    @registerVehicles straight_map yaw0_math straight_closestNode
      (straight_lattice 10) [car 7 2 1; car 8 3 1] = (L', Ok false) ∧
    ∃ vs1 v vs2 L1 nodes n id,
      [car 7 2 1; car 8 3 1] = vs1 ++ v :: vs2 ∧
      @registerVehicles straight_map yaw0_math straight_closestNode
        (straight_lattice 10) vs1 = (L1, Ok true) ∧
      @vehicleNodes straight_map yaw0_math straight_closestNode
        (straight_lattice 10) v = Ok nodes ∧ n ∈ nodes ∧
      vehicle <$> nodes_ L1 !! n = Some (Some id) ∧
      (vehicle <$> nodes_ (straight_lattice 10) !! n = Some (Some id) ∨
       ∃ v', v' ∈ vs1 ∧ v'.1.1 = id).
Proof.
  eexists. split; [reflexivity|].
  by eapply (@registerVehicles_false_is_collision straight_map yaw0_math
              straight_closestNode (straight_lattice 10)).
Defined.

Lemma registerVehicles_collision_is_false_witness :
  ∃ L',
    @registerVehicles straight_map yaw0_math straight_closestNode
      (straight_lattice 10) ([car 7 2 1] ++ car 8 3 1 :: [car 9 7 1]) = (L', Ok false).
Proof.
  eapply (@registerVehicles_collision_is_false straight_map yaw0_math
           straight_closestNode (straight_lattice 10) _
           [car 7 2 1] [car 9 7 1] (car 8 3 1) [2; 3; 4]%N 3%N 7%N).
  - reflexivity.
  - reflexivity.
  - intros m Hm. rewrite !elem_of_cons in Hm.
    destruct Hm as [->|[->|[->|?%elem_of_nil]]]; [by eexists..|done].
  - right. by left.
  - reflexivity.
Defined.

Lemma registerVehicles_off_lattice_witness :
  ∃ L1,
    @registerVehicles straight_map yaw0_math (short_closestNode 10)
      (straight_lattice 10) [car 7 2 1] = (L1, Ok true) ∧
    @registerVehicles straight_map yaw0_math (short_closestNode 10)
      (straight_lattice 10) ([car 7 2 1] ++ car 8 9 2 :: [car 9 6 1])
    = (L1, Throw NodesNotFound).
Proof.
  eexists. split; [reflexivity|].
  eapply (@registerVehicles_off_lattice straight_map yaw0_math (short_closestNode 10)
           (straight_lattice 10) _ [car 7 2 1] [car 9 6 1] (car 8 9 2)).
  - reflexivity.
  - left. reflexivity.
Defined.

Lemma registerVehicles_sequences_witness :
  ∃ L' nodes,
    @registerVehicles straight_map yaw0_math straight_closestNode
      (straight_lattice 10) [car 7 2 1; car 8 6 2] = (L', Ok true) ∧
    vehicle_to_nodes_table_ L' !! 8%N = Some nodes ∧
    nodes ≠ [] ∧ NoDup nodes.
Proof.
  eexists _, _. split; [reflexivity|]. split; [reflexivity|].
  by eapply (@registerVehicles_sequences straight_map yaw0_math straight_closestNode
              (straight_lattice 10) _ [car 7 2 1; car 8 6 2] 8%N).
Defined.

Lemma registerVehicles_marks_match_table_witness :
  ∃ L',
    @registerVehicles straight_map yaw0_math straight_closestNode
      (straight_lattice 10) [car 7 2 1; car 8 6 2] = (L', Ok true) ∧
    ∀ n id,
      vehicle <$> nodes_ L' !! n = Some (Some id) ↔
      ∃ nodes, vehicle_to_nodes_table_ L' !! id = Some nodes ∧ n ∈ nodes.
Proof.
  eexists. split; [reflexivity|].
  eapply (@registerVehicles_marks_match_table straight_map yaw0_math straight_closestNode
           (straight_lattice 10) _ [car 7 2 1; car 8 6 2]).
  - intros n node. apply straight_nodes_free.
  - simpl. apply NoDup_cons. split; [|apply NoDup_singleton].
    by intros [=]%list_elem_of_singleton.
  - reflexivity.
Defined.

Lemma sortByDistance_keeps_witness :
  let vehicle_transforms := arrangeTransforms [car 7 20 2; car 8 30 2; car 9 120 3] in
  ∃ table',
    @sortByDistance row_map sort_by_key vehicle_transforms
      (@arrangeByRoads row_map vehicle_transforms) = Ok table' ∧
    dom table' = dom (@arrangeByRoads row_map vehicle_transforms) ∧
    ∀ road, table' !!! road ≡ₚ @arrangeByRoads row_map vehicle_transforms !!! road.
Proof.
  cbv zeta.
  destruct (@sortByDistance_total row_map sort_by_key
              (arrangeTransforms [car 7 20 2; car 8 30 2; car 9 120 3])
              (@arrangeByRoads row_map
                 (arrangeTransforms [car 7 20 2; car 8 30 2; car 9 120 3]))
              sort_by_key_total) as (table' & Htable & _).
  { intros v. apply waypointToRoadStartDistance_Ok. simpl. lia. }
  exists table'. split; [done|].
  apply (@sortByDistance_keeps row_map sort_by_key _ _ table' sort_by_key_spec Htable).
Defined.

Lemma latticeStartAndRange_one_road_witness :
  let vehicles := [car 7 20 2; car 8 30 2] in
  ∃ start range,
    @latticeStartAndRange row_map yaw0_math (line_router 10) elements_begin sort_by_key
      vehicles = Ok (start, range) ∧
    ∃ first_vehicle last_vehicle,
      first_vehicle ∈ vehicles ∧ last_vehicle ∈ vehicles ∧
      start = @vehicleRearWaypoint row_map yaw0_math first_vehicle.1.2 first_vehicle.2 ∧
      let last_waypoint :=
        @vehicleHeadWaypoint row_map yaw0_math last_vehicle.1.2 last_vehicle.2 in
      (GetRoadId start = 0%N → GetRoadId last_waypoint = 0%N →
       ∃ d0 d1, @waypointToRoadStartDistance row_map start = Ok d0 ∧
                @waypointToRoadStartDistance row_map last_waypoint = Ok d1 ∧
                range = (0 + @GetLength row_map 0%N - d0
                         - (@GetLength row_map 0%N - d1))%Qc).
Proof.
  cbv zeta. eexists _, _. split; [vm_compute; reflexivity|].
  apply (@latticeStartAndRange_one_road row_map yaw0_math (line_router 10)
           elements_begin sort_by_key [car 7 20 2; car 8 30 2]).
  - apply sort_by_key_spec.
  - apply elements_begin_spec.
  - intros v Hv. rewrite !elem_of_cons in Hv.
    destruct Hv as [->|[->|?%elem_of_nil]]; [by vm_compute..|done].
  - vm_compute. discriminate.
  - vm_compute. discriminate.
  - vm_compute. reflexivity.
Defined.

Lemma newTrafficLattice_consistent_witness :
  let vehicles := [car 7 20 2; car 8 30 2] in
  ∃ L,
    @newTrafficLattice row_map yaw0_math (line_router 10) elements_begin sort_by_key
      (λ _ _ _, Ok (straight_nodes 40)) (λ _, straight_closestNode) vehicles = Ok L ∧
    ∃ start range nodes,
      @latticeStartAndRange row_map yaw0_math (line_router 10) elements_begin sort_by_key
        vehicles = Ok (start, range) ∧
      (lit 1.0 < range)%Qc ∧
      Ok (straight_nodes 40) = Ok nodes ∧
      links (nodes_ L) = links nodes ∧
      (∀ v, v ∈ vehicles → is_Some (vehicle_to_nodes_table_ L !! v.1.1)) ∧
      ∀ n id,
        vehicle <$> nodes_ L !! n = Some (Some id) ↔
        ∃ ns, vehicle_to_nodes_table_ L !! id = Some ns ∧ n ∈ ns.
Proof.
  cbv zeta. eexists. split; [vm_compute; reflexivity|].
  apply (@newTrafficLattice_consistent row_map yaw0_math (line_router 10)
           elements_begin sort_by_key (λ _ _ _, Ok (straight_nodes 40))
           (λ _, straight_closestNode) [car 7 20 2; car 8 30 2]).
  - intros start range resolution nodes n node [= <-]. apply straight_nodes_free.
  - simpl. apply NoDup_cons. split; [|apply NoDup_singleton].
    by intros [=]%list_elem_of_singleton.
  - vm_compute. reflexivity.
Defined.
